(** * HdrHistogram: the cumulative and windowed histogram metric

    A shallow embedding of [pkg/util/metric/hdrhistogram.go] and the
    properties its specification states about it.

    Conventions of the embedding.
    - [int64], [uint64], [int], [time.Time] and [time.Duration] values are
      integers of [Z]; the one place where the file computes in [uint64]
      (the running bucket count of the exporters) has its wrap-around
      written out, and so has the [int64] shift by which the library finds
      its range.
    - [float64] values are the rationals they denote ([Q]).  Every float of
      this file is obtained from integers by conversion, addition,
      multiplication and division.  A [float64] holds every integer up to
      2^53 in absolute value and rounds beyond: a statement that equates a
      computed float with an integer expression is made within that bound;
      the other statements compare floats that are computed alike, or look
      at the shape of a record only.
    - The mutex-guarded struct is threaded explicitly: a method is a function
      from the state before the call to the state after it (and a result).
    - The wall clock [now()] is an explicit argument [now] of every method
      that reads it.
    - A Go [error] result of a third-party call is [None], and so is a
      call that panics or does not return. *)

From Stdlib Require Import ZArith QArith Lia Lqa Sorted.
From stdpp Require Import base option list sorting strings.

Open Scope Z_scope.

(** ** github.com/prometheus/client_model/go *)

Module prometheusgo.

Inductive MetricType := COUNTER | GAUGE | SUMMARY | UNTYPED | HISTOGRAM.

(** [Bucket]: [CumulativeCount *uint64], [UpperBound *float64]. *)
Record Bucket := {
  CumulativeCount : Z;
  UpperBound : Q;
}.

(** [Histogram]: [SampleCount *uint64], [SampleSum *float64] and the
    repeated field [Bucket] (here [Buckets], the type already has that
    name). *)
Record Histogram := {
  SampleCount : Z;
  SampleSum : Q;
  Buckets : list Bucket;
}.

(** [Metric], reduced to the one field this file fills in. *)
Record Metric := {
  Metric_Histogram : Histogram;
}.

End prometheusgo.

(** ** github.com/codahale/hdrhistogram *)

Module hdrhistogram.

(** [Bar]: [From], [To], [Count int64]. *)
Record Bar := {
  From : Z;
  To : Z;
  Count : Z;
}.

(** The bucketed distribution is a third-party type whose bucket
    arithmetic is not part of this repository.  Its methods, as far as
    [hdrhistogram.go] calls them, form an interface; the metric is embedded
    over any implementation of it.

    [New] is [None] when the constructor panics or does not return,
    [RecordValue] is [None] when it returns an error (the receiver is then
    left as it was), and [Merge h from] is the receiver [h] after
    [h.Merge(from)]. *)
Class Primitive := {
  Histogram : Type;
  New : Z → Z → Z → option Histogram;
  RecordValue : Histogram → Z → option Histogram;
  TotalCount : Histogram → Z;
  Mean : Histogram → Q;
  Min : Histogram → Z;
  Distribution : Histogram → list Bar;
  Merge : Histogram → Histogram → Histogram;
  Reset : Histogram → Histogram;
  HighestTrackableValue : Histogram → Z;
}.

(** *** The range of a distribution

    What [RecordValue] of [hdrhistogram.go] does with a value depends on
    one thing the library decides: which values its [RecordValue] takes and
    which it answers with an error.  The library fixes this in its
    constructor [New(minValue, maxValue, sigfigs)], by the size of the
    array of counts: the array has [subBucketCount] entries of unit width
    and is extended, one bucket of doubled width at a time, until it covers
    [maxValue]:

      [smallestUntrackableValue := int64(subBucketCount) << unitMagnitude]
      [for smallestUntrackableValue < maxValue { smallestUntrackableValue <<= 1 }]

    where [unitMagnitude] is 0 for the [minValue] 0 that [hdrhistogram.go]
    passes.  A value has an entry in the array, and is taken, iff it is
    not negative and below the final [smallestUntrackableValue]; the
    parameter [maxValue] plays no other part in the check. *)

(** The value of an [int64] expression whose mathematical value is [x]. *)
Definition int64 (x : Z) : Z := (x + 2 ^ 63) mod 2 ^ 64 - 2 ^ 63.

(** [subBucketCount]: two to the power [ceil(log2(2 * 10^sigfigs))], the
    number of values at the bottom of the range that are told apart: 32 for
    one significant figure, 256 for two, 2048 for three. *)
Definition subBucketCount (sigfigs : Z) : Z := 2 ^ Z.log2_up (2 * 10 ^ sigfigs).

(** The loop [for s < maxValue { s <<= 1 }] on an [int64].  The shift wraps:
    from 2^62 it goes to -2^63 and then to 0, where it stays, so for a
    [maxValue] above 2^62 the loop does not end; the iterations allowed here
    are more than it takes to get there. *)
Fixpoint doubleUntil (fuel : nat) (maxValue s : Z) : option Z :=
  match fuel with
  | O => None
  | S fuel' =>
    if s <? maxValue then doubleUntil fuel' maxValue (int64 (2 * s)) else Some s
  end.

Definition smallestUntrackableValue (maxValue sigfigs : Z) : option Z :=
  doubleUntil 64 maxValue (subBucketCount sigfigs).

Arguments smallestUntrackableValue : simpl never.

Section Windowed.
Context {P : Primitive}.

(** Modelled from the spec: the type [hdrhistogram.WindowedHistogram]
    and its functions [NewWindowed], [Rotate] and [Merge] are not part of
    this repository.  The spec (4.2, 4.3, 9) describes a fixed-size array
    of distributions plus a current index; rotation advances the index
    and clears exactly the slot it lands on; merging folds all slots into
    a transient distribution and leaves the slots alone.  [idx] counts the
    rotations since construction, the current slot is [idx mod length h];
    [m] is the distribution the transient merge starts from. *)
Record WindowedHistogram := {
  idx : nat;
  h : list Histogram;
  m : Histogram;
}.

Definition currentSlot (w : WindowedHistogram) : nat :=
  (idx w mod length (h w))%nat.

(** The field [Current], a pointer into [h]. *)
Definition Current (w : WindowedHistogram) : option Histogram :=
  h w !! currentSlot w.

(** A write through the pointer [Current]. *)
Definition updateCurrent (f : Histogram → Histogram)
    (w : WindowedHistogram) : WindowedHistogram :=
  {| idx := idx w; h := alter f (currentSlot w) (h w); m := m w |}.

Definition WindowedHistogram_Rotate (w : WindowedHistogram) : WindowedHistogram :=
  updateCurrent Reset {| idx := S (idx w); h := h w; m := m w |}.

Definition WindowedHistogram_Merge (w : WindowedHistogram) : Histogram :=
  fold_left Merge (h w) (Reset (m w)).

Definition NewWindowed (n minValue maxValue sigfigs : Z) : option WindowedHistogram :=
  match New minValue maxValue sigfigs with
  | Some fresh => Some {| idx := 0; h := replicate (Z.to_nat n) fresh; m := fresh |}
  | None => None
  end.

End Windowed.

End hdrhistogram.

(** ** pkg/util/metric/tick *)

Module tick.

Section Ticker.
Context {St : Type}.

(** Modelled from the spec: the package [tick] ([Ticker], [NewTicker],
    [MaybeTick], [Tick], [NextTick]) is a package of its own.
    The spec (4.2) gives the policy: a rotation is due iff
    [now - lastRotation >= subWindowDuration]; a tick call site rotates
    at most once and sets [lastRotation] to [now].  [onTick] is the
    callback given at construction; it acts on the state [St] it was
    closed over. *)
Record Ticker := {
  lastRotation : Z;
  tickInterval : Z;
  onTick : St → St;
}.

Definition NewTicker (now tickInterval : Z) (onTick : St → St) : Ticker :=
  {| lastRotation := now; tickInterval := tickInterval; onTick := onTick |}.

Definition isDue (now : Z) (t : Ticker) : bool :=
  tickInterval t <=? now - lastRotation t.

Definition NextTick (t : Ticker) : Z :=
  lastRotation t + tickInterval t.

Definition Tick (now : Z) (t : Ticker) (s : St) : Ticker * St :=
  ({| lastRotation := now; tickInterval := tickInterval t; onTick := onTick t |},
   onTick t s).

Definition MaybeTick (now : Z) (t : Ticker) (s : St) : Ticker * St :=
  if isDue now t then Tick now t s else (t, s).

End Ticker.

Arguments Ticker : clear implicits.

End tick.

(** ** pkg/util/metric/hdrhistogram.go *)

Module metric.

Section HdrHistogram.
Context {P : hdrhistogram.Primitive}.

(** Modelled from the spec: the constant [WindowedHistogramWrapNum] is
    declared elsewhere in the package; the spec (3) calls it the fixed ring
    size [W] and gives its value as 2. *)
Definition WindowedHistogramWrapNum : Z := 2.

(** [HdrHistogramMaxLatency = 10 * time.Second], in nanoseconds. *)
Definition HdrHistogramMaxLatency : Z := 10 * 1000000000.

(** Modelled from the spec: the struct [Metadata] is declared elsewhere in
    the package; the spec (3) lists identity and description fields that are
    passed through unchanged.  [MetricType] is the field [GetMetadata]
    sets. *)
Record Metadata := {
  Name : string;
  Help : string;
  MetricType : prometheusgo.MetricType;
}.

(** The struct [HdrHistogram]; the fields of [mu] are inlined, the mutex
    itself has no state of its own in a sequential run. *)
Record HdrHistogram := {
  HdrHistogram_Metadata : Metadata;
  maxVal : Z;
  cumulative : hdrhistogram.Histogram;
  Ticker : tick.Ticker hdrhistogram.WindowedHistogram;
  sliding : hdrhistogram.WindowedHistogram;
}.

(** [duration/WindowedHistogramWrapNum] is Go's truncating division. *)
Definition NewHdrHistogram (metadata : Metadata) (now duration maxVal sigFigs : Z)
    : option HdrHistogram :=
  match hdrhistogram.NewWindowed WindowedHistogramWrapNum 0 maxVal sigFigs with
  | None => None
  | Some wHist =>
    match hdrhistogram.New 0 maxVal sigFigs with
    | None => None
    | Some c =>
      Some {| HdrHistogram_Metadata := metadata;
              maxVal := maxVal;
              cumulative := c;
              Ticker := tick.NewTicker now (Z.quot duration WindowedHistogramWrapNum)
                          hdrhistogram.WindowedHistogram_Rotate;
              sliding := wHist |}
    end
  end.

Definition NewHdrLatency (metadata : Metadata) (now histogramWindow : Z)
    : option HdrHistogram :=
  NewHdrHistogram metadata now histogramWindow HdrHistogramMaxLatency 1.

(** The statement pair
    [if x.RecordValue(v) != nil { _ = x.RecordValue(h.maxVal) }]. *)
Definition recordOrMax (maxVal v : Z) (x : hdrhistogram.Histogram)
    : hdrhistogram.Histogram :=
  match hdrhistogram.RecordValue x v with
  | Some x' => x'
  | None =>
    match hdrhistogram.RecordValue x maxVal with
    | Some x' => x'
    | None => x
    end
  end.

Definition RecordValue (hh : HdrHistogram) (v : Z) : HdrHistogram :=
  {| HdrHistogram_Metadata := HdrHistogram_Metadata hh;
     maxVal := maxVal hh;
     cumulative := recordOrMax (maxVal hh) v (cumulative hh);
     Ticker := Ticker hh;
     sliding := hdrhistogram.updateCurrent (recordOrMax (maxVal hh) v) (sliding hh) |}.

Definition Total (hh : HdrHistogram) : Z * Q :=
  let totalSum :=
    (inject_Z (hdrhistogram.TotalCount (cumulative hh)) * hdrhistogram.Mean (cumulative hh))%Q in
  (hdrhistogram.TotalCount (cumulative hh), totalSum).

Definition Min (hh : HdrHistogram) : Z :=
  hdrhistogram.Min (cumulative hh).

(** [tick.MaybeTick(h.mu.Ticker)] on the receiver: the ticker and the ring
    its callback was closed over are both fields of [mu]. *)
Definition maybeTick (now : Z) (hh : HdrHistogram) : HdrHistogram :=
  let '(t, w) := tick.MaybeTick now (Ticker hh) (sliding hh) in
  {| HdrHistogram_Metadata := HdrHistogram_Metadata hh;
     maxVal := maxVal hh;
     cumulative := cumulative hh;
     Ticker := t;
     sliding := w |}.

Definition Inspect {A : Type} (now : Z) (hh : HdrHistogram) (f : HdrHistogram → A)
    : HdrHistogram * A :=
  let hh' := maybeTick now hh in
  (hh', f hh').

Definition NextTick (hh : HdrHistogram) : Z :=
  tick.NextTick (Ticker hh).

Definition Tick (now : Z) (hh : HdrHistogram) : HdrHistogram :=
  let '(t, w) := tick.Tick now (Ticker hh) (sliding hh) in
  {| HdrHistogram_Metadata := HdrHistogram_Metadata hh;
     maxVal := maxVal hh;
     cumulative := cumulative hh;
     Ticker := t;
     sliding := w |}.

Definition GetType : prometheusgo.MetricType := prometheusgo.HISTOGRAM.

(** [uint64(x)] for an [int64] [x], and [uint64] addition. *)
Definition uint64 (x : Z) : Z := x mod 2 ^ 64.

(** The locals of the exporters' loop: [hist.Bucket], [cumCount], [sum]. *)
Record exportLoop := {
  loop_Bucket : list prometheusgo.Bucket;
  cumCount : Z;
  sum : Q;
}.

(** One iteration of [for _, bar := range bars]. *)
Definition exportBar (st : exportLoop) (bar : hdrhistogram.Bar) : exportLoop :=
  if hdrhistogram.Count bar =? 0 then st
  else
    let upperBound := inject_Z (hdrhistogram.To bar) in
    let sum' := (sum st + upperBound * inject_Z (hdrhistogram.Count bar))%Q in
    let cumCount' := uint64 (cumCount st + uint64 (hdrhistogram.Count bar)) in
    let curCumCount := cumCount' in
    {| loop_Bucket := loop_Bucket st ++
         [ {| prometheusgo.CumulativeCount := curCumCount;
              prometheusgo.UpperBound := upperBound |} ];
       cumCount := cumCount';
       sum := sum' |}.

(** The code from [hist.Bucket = make(...)] to the [return] of
    [ToPrometheusMetric]; [toPrometheusMetricWindowedLocked] repeats it word
    for word. *)
Definition exportBars (bars : list hdrhistogram.Bar) : prometheusgo.Metric :=
  let st := fold_left exportBar bars
              {| loop_Bucket := []; cumCount := 0; sum := 0%Q |} in
  {| prometheusgo.Metric_Histogram :=
       {| prometheusgo.SampleCount := cumCount st;
          prometheusgo.SampleSum := sum st;
          prometheusgo.Buckets := loop_Bucket st |} |}.

Definition ToPrometheusMetric (now : Z) (hh : HdrHistogram)
    : HdrHistogram * prometheusgo.Metric :=
  let hh' := maybeTick now hh in
  let bars := hdrhistogram.Distribution (cumulative hh') in
  (hh', exportBars bars).

Definition TotalWindowed (hh : HdrHistogram) : Z * Q :=
  let hist := hdrhistogram.WindowedHistogram_Merge (sliding hh) in
  let totalSum := (inject_Z (hdrhistogram.TotalCount hist) * hdrhistogram.Mean hist)%Q in
  (hdrhistogram.TotalCount hist, totalSum).

Definition toPrometheusMetricWindowedLocked (now : Z) (hh : HdrHistogram)
    : HdrHistogram * prometheusgo.Metric :=
  let hh' := maybeTick now hh in
  let mergedHist := hdrhistogram.WindowedHistogram_Merge (sliding hh') in
  let bars := hdrhistogram.Distribution mergedHist in
  (hh', exportBars bars).

Definition ToPrometheusMetricWindowed (now : Z) (hh : HdrHistogram)
    : HdrHistogram * prometheusgo.Metric :=
  toPrometheusMetricWindowedLocked now hh.

Definition GetMetadata (hh : HdrHistogram) : Metadata :=
  let baseMetadata := HdrHistogram_Metadata hh in
  {| Name := Name baseMetadata;
     Help := Help baseMetadata;
     MetricType := prometheusgo.HISTOGRAM |}.

Definition Mean (hh : HdrHistogram) : Q :=
  hdrhistogram.Mean (cumulative hh).

Definition MeanWindowed (hh : HdrHistogram) : Q :=
  let hist := hdrhistogram.WindowedHistogram_Merge (sliding hh) in
  hdrhistogram.Mean hist.

End HdrHistogram.

(** Modelled from the spec: the package-level function
    [ValueAtQuantileWindowed] is declared elsewhere in the package.  The
    spec (4.5) has it locate the first bucket whose fraction
    [cumulativeCount / sampleCount] is at least [q] and return that bucket's
    upper bound; with [sampleCount == 0] the result is zero.  Zero is also
    what this model returns when no bucket qualifies, a case the spec leaves
    open. *)
Definition ValueAtQuantileWindowed (histogram : prometheusgo.Histogram) (q : Q) : Q :=
  if prometheusgo.SampleCount histogram =? 0 then 0%Q
  else
    match
      find (λ b, Qle_bool q (inject_Z (prometheusgo.CumulativeCount b)
                             / inject_Z (prometheusgo.SampleCount histogram)))
           (prometheusgo.Buckets histogram)
    with
    | Some b => prometheusgo.UpperBound b
    | None => 0%Q
    end.

(** The method of the same name. *)
Definition HdrHistogram_ValueAtQuantileWindowed (q : Q) (window : prometheusgo.Metric) : Q :=
  ValueAtQuantileWindowed (prometheusgo.Metric_Histogram window) q.

End metric.

(** ** Call sequences *)

Module calls.

Section Calls.
Context {P : hdrhistogram.Primitive}.

(** One call of a lock-taking method of [HdrHistogram], with the clock
    reading of the calls that look at the clock. *)
Inductive Call :=
| RecordValue (v : Z)
| Total
| Min
| Inspect (now : Z)
| NextTick
| Tick (now : Z)
| ToPrometheusMetric (now : Z)
| TotalWindowed
| ToPrometheusMetricWindowed (now : Z)
| Mean
| MeanWindowed.

Definition isRecordValue (c : Call) : bool :=
  match c with RecordValue _ => true | _ => false end.

(** The receiver after the call. *)
Definition exec (hh : metric.HdrHistogram) (c : Call) : metric.HdrHistogram :=
  match c with
  | RecordValue v => metric.RecordValue hh v
  | Total => let _ := metric.Total hh in hh
  | Min => let _ := metric.Min hh in hh
  | Inspect now => (metric.Inspect now hh (λ _, tt)).1
  | NextTick => let _ := metric.NextTick hh in hh
  | Tick now => metric.Tick now hh
  | ToPrometheusMetric now => (metric.ToPrometheusMetric now hh).1
  | TotalWindowed => let _ := metric.TotalWindowed hh in hh
  | ToPrometheusMetricWindowed now => (metric.ToPrometheusMetricWindowed now hh).1
  | Mean => let _ := metric.Mean hh in hh
  | MeanWindowed => let _ := metric.MeanWindowed hh in hh
  end.

Definition run (hh : metric.HdrHistogram) (cs : list Call) : metric.HdrHistogram :=
  fold_left exec cs hh.

(** Whether the call rotates the ring: [Tick] always does, the three
    methods that call [tick.MaybeTick] do when a rotation is due, the others
    never do. *)
Definition rotates (hh : metric.HdrHistogram) (c : Call) : bool :=
  match c with
  | Tick _ => true
  | Inspect now | ToPrometheusMetric now | ToPrometheusMetricWindowed now =>
    tick.isDue now (metric.Ticker hh)
  | _ => false
  end.

(** The number of rotations in the course of a sequence. *)
Fixpoint rotations (hh : metric.HdrHistogram) (cs : list Call) : nat :=
  match cs with
  | [] => 0
  | c :: cs' => (if rotates hh c then 1 else 0) + rotations (exec hh c) cs'
  end.

(** The number of [RecordValue] calls of a sequence. *)
Definition recorded (cs : list Call) : Z :=
  Z.of_nat (length (filter (λ c, isRecordValue c = true) cs)).

(** Whether a distribution that takes the values [0 .. lim - 1] takes [v]. *)
Definition inRange (lim v : Z) : bool := (0 <=? v) && (v <? lim).

(** Whether [RecordValue(v)] leaves a sample in such a distribution: the
    value is taken or, when it is not, [maxVal] is. *)
Definition stores (lim maxVal v : Z) : bool := inRange lim v || inRange lim maxVal.

Definition isStored (lim maxVal : Z) (c : Call) : bool :=
  match c with RecordValue v => stores lim maxVal v | _ => false end.

(** The number of [RecordValue] calls of a sequence that leave a sample. *)
Definition stored (lim maxVal : Z) (cs : list Call) : Z :=
  Z.of_nat (length (filter (λ c, isStored lim maxVal c = true) cs)).

End Calls.

End calls.

(** ** The contract of the bucketed distribution *)

Module contract.

Import hdrhistogram.

(** What the spec (2, 4.1, 4.3) assumes of the distribution it treats as a
    correct black box, as far as counts go: a fresh or reset distribution is
    empty, an accepted value adds one sample, merging two distributions of
    one range adds their counts, and no method changes the range.  Counts
    are the numbers of samples; a run long enough to overflow an [int64]
    count is outside the contract.  Which values are accepted is the
    subject of [Bucketed] below. *)
Class Lawful (P : Primitive) : Prop := {
  New_TotalCount lo hi sf x :
    New lo hi sf = Some x → TotalCount x = 0;
  New_Highest lo hi sf x :
    New lo hi sf = Some x → HighestTrackableValue x = hi;
  RecordValue_TotalCount x v x' :
    RecordValue x v = Some x' → TotalCount x' = TotalCount x + 1;
  RecordValue_Highest x v x' :
    RecordValue x v = Some x' → HighestTrackableValue x' = HighestTrackableValue x;
  Reset_TotalCount x :
    TotalCount (Reset x) = 0;
  Reset_Highest x :
    HighestTrackableValue (Reset x) = HighestTrackableValue x;
  Merge_TotalCount x y :
    HighestTrackableValue y = HighestTrackableValue x →
    TotalCount (Merge x y) = TotalCount x + TotalCount y;
  Merge_Highest x y :
    HighestTrackableValue (Merge x y) = HighestTrackableValue x;
}.

(** The distribution takes the values [0 .. lim - 1] and no others. *)
Definition tracksBelow {P : Primitive} (lim : Z) (x : Histogram) : Prop :=
  ∀ v, is_Some (RecordValue x v) ↔ 0 ≤ v < lim.

(** The range check of the library: a distribution made by [New] for the
    values from 0 takes exactly the values below its
    [smallestUntrackableValue], and recording or resetting does not change
    what a distribution takes. *)
Class Bucketed (P : Primitive) : Prop := {
  New_range hi sf x :
    New 0 hi sf = Some x →
    ∃ lim, smallestUntrackableValue hi sf = Some lim ∧ tracksBelow lim x;
  RecordValue_range x v x' u :
    RecordValue x v = Some x' →
    is_Some (RecordValue x' u) ↔ is_Some (RecordValue x u);
  Reset_range x u :
    is_Some (RecordValue (Reset x) u) ↔ is_Some (RecordValue x u);
}.

Section Predicates.
Context {P : Primitive}.

(** The representation invariant of [HdrHistogram]: what [NewHdrHistogram]
    sets up and every method keeps. *)
Record Invariant (hh : metric.HdrHistogram) : Prop := {
  inv_cumulative :
    HighestTrackableValue (metric.cumulative hh) = metric.maxVal hh;
  inv_slots :
    Forall (λ x, HighestTrackableValue x = metric.maxVal hh) (h (metric.sliding hh));
  inv_m :
    HighestTrackableValue (m (metric.sliding hh)) = metric.maxVal hh;
  inv_onTick :
    tick.onTick (metric.Ticker hh) = WindowedHistogram_Rotate;
}.

(** The cumulative distribution and every slot of the ring take the values
    [0 .. lim - 1]: they were made for one range and are checked alike. *)
Record Ranged (lim : Z) (hh : metric.HdrHistogram) : Prop := {
  range_cumulative : tracksBelow lim (metric.cumulative hh);
  range_slots : Forall (tracksBelow lim) (h (metric.sliding hh));
}.

(** Bars as a distribution hands them out: in ascending order of [To], with
    counts that are not negative and whose total fits [uint64]. *)
Definition sumCounts (bars : list Bar) : Z :=
  foldr (λ bar acc, Count bar + acc) 0 bars.

Record barsOfDistribution (bars : list Bar) : Prop := {
  bars_ascending : StronglySorted (λ a b, To a < To b) bars;
  bars_nonneg : Forall (λ bar, 0 ≤ Count bar) bars;
  bars_total : sumCounts bars < 2 ^ 64;
}.

(** The shape the spec (8) promises of an exposition record. *)
Record wellFormedExposition (r : prometheusgo.Histogram) : Prop := {
  upperBound_increasing :
    StronglySorted (λ a b, (prometheusgo.UpperBound a < prometheusgo.UpperBound b)%Q)
      (prometheusgo.Buckets r);
  cumulativeCount_nondecreasing :
    StronglySorted (λ a b, prometheusgo.CumulativeCount a ≤ prometheusgo.CumulativeCount b)
      (prometheusgo.Buckets r);
  final_cumulativeCount b :
    last (prometheusgo.Buckets r) = Some b →
    prometheusgo.CumulativeCount b = prometheusgo.SampleCount r;
}.

(** The last [k] rotations each cleared the slot they landed on, and these
    slots are still empty. *)
Definition recentlyCleared (k : nat) (w : WindowedHistogram) : Prop :=
  ∀ d x, (d < k)%nat → (d ≤ idx w)%nat →
    h w !! ((idx w - d) mod length (h w))%nat = Some x → TotalCount x = 0.

(** The spec's wording (4.6) of the two windowed summaries: first the lazy
    rotation check, then the merge and the computation over it. *)
Definition TotalWindowed_spec (now : Z) (hh : metric.HdrHistogram)
    : metric.HdrHistogram * (Z * Q) :=
  let hh' := metric.maybeTick now hh in
  (hh', metric.TotalWindowed hh').


(** The spec's wording (4.4) of the approximate sum: the sum, over the bars
    with a count other than zero, of upper bound times count. *)
Definition emitted (bars : list Bar) : list Bar :=
  filter (λ bar, Count bar ≠ 0) bars.

Definition sumOfEmitted (bars : list Bar) : Q :=
  fold_left (λ acc bar, (acc + inject_Z (To bar) * inject_Z (Count bar))%Q)
    (emitted bars) 0%Q.

(** The spec's wording (4.4) of the bucket list: keep a running count; for
    each bar with a count other than zero, add its count to the running
    count and emit the running count with the bar's upper bound.  The
    running count is a [uint64], as in the code. *)
Definition runningCount (running : Z) (bar : Bar) : Z :=
  metric.uint64 (running + metric.uint64 (Count bar)).

Fixpoint cumulativeBuckets (running : Z) (bars : list Bar) : list prometheusgo.Bucket :=
  match bars with
  | [] => []
  | bar :: rest =>
    {| prometheusgo.CumulativeCount := runningCount running bar;
       prometheusgo.UpperBound := inject_Z (To bar) |}
    :: cumulativeBuckets (runningCount running bar) rest
  end.

End Predicates.

End contract.

(** ** A reference distribution *)

Module exact.

(** A distribution with the library's range and of unit resolution: it
    takes the values the library takes and keeps every sample as it is,
    where the library keeps a count per bucket (the two agree on the values
    below [subBucketCount], whose buckets are one unit wide).  It serves as
    the implementation at which the statements below are evaluated. *)
Record Histogram := {
  highest : Z;
  untrackable : Z;
  samples : list Z;
}.

(** The constructor panics unless it is given one to five significant
    figures, and returns once its loop has found the range. *)
Definition New (minValue maxValue sigfigs : Z) : option Histogram :=
  if (1 <=? sigfigs) && (sigfigs <=? 5)
  then
    match hdrhistogram.smallestUntrackableValue maxValue sigfigs with
    | Some s => Some {| highest := maxValue; untrackable := s; samples := [] |}
    | None => None
    end
  else None.

Definition RecordValue (x : Histogram) (v : Z) : option Histogram :=
  if (0 <=? v) && (v <? untrackable x)
  then Some {| highest := highest x; untrackable := untrackable x;
               samples := v :: samples x |}
  else None.

Definition TotalCount (x : Histogram) : Z :=
  Z.of_nat (length (samples x)).

Definition Mean (x : Histogram) : Q :=
  if TotalCount x =? 0 then 0%Q
  else (inject_Z (foldr Z.add 0%Z (samples x)) / inject_Z (TotalCount x))%Q.

Definition Min (x : Histogram) : Z :=
  match samples x with
  | [] => 0
  | v :: vs => foldr Z.min v vs
  end.

Definition countOf (v : Z) (x : Histogram) : Z :=
  Z.of_nat (length (filter (λ s, s = v) (samples x))).

Definition Distribution (x : Histogram) : list hdrhistogram.Bar :=
  (λ v, {| hdrhistogram.From := v; hdrhistogram.To := v;
           hdrhistogram.Count := countOf v x |}) <$> seqZ 0 (untrackable x).

Definition Merge (x from : Histogram) : Histogram :=
  {| highest := highest x; untrackable := untrackable x;
     samples := samples from ++ samples x |}.

Definition Reset (x : Histogram) : Histogram :=
  {| highest := highest x; untrackable := untrackable x; samples := [] |}.

#[export] Instance primitive : hdrhistogram.Primitive := {|
  hdrhistogram.Histogram := Histogram;
  hdrhistogram.New := New;
  hdrhistogram.RecordValue := RecordValue;
  hdrhistogram.TotalCount := TotalCount;
  hdrhistogram.Mean := Mean;
  hdrhistogram.Min := Min;
  hdrhistogram.Distribution := Distribution;
  hdrhistogram.Merge := Merge;
  hdrhistogram.Reset := Reset;
  hdrhistogram.HighestTrackableValue := highest;
|}.

(** The distribution [New 0 maxValue 1] returns. *)
Definition empty (maxValue : Z) : Histogram :=
  {| highest := maxValue;
     untrackable := default 0 (hdrhistogram.smallestUntrackableValue maxValue 1);
     samples := [] |}.

Definition metadata : metric.Metadata :=
  {| metric.Name := "sql.exec.latency"; metric.Help := "Latency of SQL statement execution";
     metric.MetricType := prometheusgo.HISTOGRAM |}.

(** The instance [NewHdrHistogram metadata now duration maxVal 1] returns. *)
Definition initial (now duration maxVal : Z) : metric.HdrHistogram :=
  {| metric.HdrHistogram_Metadata := metadata;
     metric.maxVal := maxVal;
     metric.cumulative := empty maxVal;
     metric.Ticker :=
       tick.NewTicker now (Z.quot duration 2) hdrhistogram.WindowedHistogram_Rotate;
     metric.sliding :=
       {| hdrhistogram.idx := 0;
          hdrhistogram.h := [empty maxVal; empty maxVal];
          hdrhistogram.m := empty maxVal |} |}.

(** The instance of the spec's scenario (8): [maxVal] 1000, a window of
    100 in two sub-windows of 50, constructed at time 0; the samples 10, 500
    and 2000. *)
Definition scenario : metric.HdrHistogram :=
  calls.run (initial 0 100 1000)
    [calls.RecordValue 10; calls.RecordValue 500; calls.RecordValue 2000].


(** An instance of [maxVal] 10 with the samples 1, 5, 5, 10 and 15000. *)
Definition exposed : metric.HdrHistogram :=
  calls.run (initial 0 100 10)
    [calls.RecordValue 1; calls.RecordValue 5; calls.RecordValue 5;
     calls.RecordValue 10; calls.RecordValue 15000].

End exact.

(** ** Notions for the further properties *)

Module exposition.

Import hdrhistogram.

(** A bucket with its cumulative count moved up by [c], in [uint64]. *)
Definition shiftBucket (c : Z) (b : prometheusgo.Bucket) : prometheusgo.Bucket :=
  {| prometheusgo.CumulativeCount := metric.uint64 (c + prometheusgo.CumulativeCount b);
     prometheusgo.UpperBound := prometheusgo.UpperBound b |}.

(** The number of samples in the bars whose upper bound is at most [u]. *)
Definition countUpTo (u : Z) (bars : list Bar) : Z :=
  contract.sumCounts (filter (λ bar, To bar ≤ u) bars).

(** The sum of upper bound times count, as an integer. *)
Definition weightedSum (bars : list Bar) : Z :=
  foldr (λ bar acc, To bar * Count bar + acc) 0 bars.

(** The record of an exporter that found no bar with a count. *)
Definition emptyRecord : prometheusgo.Histogram :=
  {| prometheusgo.SampleCount := 0; prometheusgo.SampleSum := 0%Q;
     prometheusgo.Buckets := [] |}.

End exposition.

Module window.

Import hdrhistogram.

Section Window.
Context {P : Primitive}.

(** The count of slot [i] of the ring; zero where there is no slot. *)
Definition slotCount (w : WindowedHistogram) (i : nat) : Z :=
  from_option TotalCount 0 (h w !! i).

(** The number of rotations since slot [i] was last the one a rotation
    landed on: zero for the current slot, [length h - 1] for the slot the
    next rotation clears. *)
Definition age (w : WindowedHistogram) (i : nat) : nat :=
  ((idx w + (length (h w) - i)) mod length (h w))%nat.

(** The sum of [g 0 .. g (n - 1)]. *)
Fixpoint sumBelow (n : nat) (g : nat → Z) : Z :=
  match n with
  | O => 0
  | S n' => sumBelow n' g + g n'
  end.

(** The samples in the slots of age below [k]. *)
Definition recentCount (k : nat) (w : WindowedHistogram) : Z :=
  sumBelow (length (h w))
    (λ i, if decide (age w i < k)%nat then slotCount w i else 0).

(** No slot of the ring has a negative count. *)
Definition slotsNonneg (w : WindowedHistogram) : Prop :=
  Forall (λ x, 0 ≤ TotalCount x) (h w).

(** The slots of age below [k] hold at most [c] samples, and none of them
    has a negative count. *)
Definition holdsAtMost (k : nat) (c : Z) (w : WindowedHistogram) : Prop :=
  (∀ i, (i < length (h w))%nat → (age w i < k)%nat → 0 ≤ slotCount w i)
  ∧ recentCount k w ≤ c.

(** Fewer rotations than slots, [k], lie behind, and the slots of age up to
    [k] hold at least [c] samples. *)
Definition holdsAtLeast (k : nat) (c : Z) (w : WindowedHistogram) : Prop :=
  (k < length (h w))%nat ∧ slotsNonneg w ∧ c ≤ recentCount (S k) w.

End Window.

End window.

(** Instances at which the further properties are evaluated. *)
Module examples.

(** [maxVal] 10; the samples 2 and 7, a rotation at time 50, the sample 9. *)
Definition straddling : metric.HdrHistogram :=
  calls.run (exact.initial 0 100 10)
    [calls.RecordValue 2; calls.RecordValue 7; calls.Tick 50; calls.RecordValue 9].

(** Bars with a gap: counts 2, 0, 3 and 1 at the upper bounds 1, 3, 7, 15. *)
Definition bars : list hdrhistogram.Bar :=
  [ {| hdrhistogram.From := 0; hdrhistogram.To := 1; hdrhistogram.Count := 2 |};
    {| hdrhistogram.From := 2; hdrhistogram.To := 3; hdrhistogram.Count := 0 |};
    {| hdrhistogram.From := 4; hdrhistogram.To := 7; hdrhistogram.Count := 3 |};
    {| hdrhistogram.From := 8; hdrhistogram.To := 15; hdrhistogram.Count := 1 |} ].

End examples.

(** * Properties *)

Import hdrhistogram contract.

(** ** The exporters' loop *)

Section ExportLoop.

Implicit Types (bars : list Bar) (st : metric.exportLoop).

Lemma emitted_cons bar bars :
  emitted (bar :: bars) = if Count bar =? 0 then emitted bars else bar :: emitted bars.
Proof.
  unfold emitted. rewrite filter_cons.
  destruct (Z.eqb_spec (Count bar) 0); case_decide; done.
Qed.

(** The loop, started in any state, appends the spec's bucket list of the
    remaining bars and adds up their approximate sum. *)
Lemma fold_exportBar bars st :
  fold_left metric.exportBar bars st =
  {| metric.loop_Bucket :=
       metric.loop_Bucket st ++ cumulativeBuckets (metric.cumCount st) (emitted bars);
     metric.cumCount := fold_left runningCount (emitted bars) (metric.cumCount st);
     metric.sum :=
       fold_left (λ acc bar, (acc + inject_Z (To bar) * inject_Z (Count bar))%Q)
         (emitted bars) (metric.sum st) |}.
Proof.
  revert st. induction bars as [|bar bars IH]; intros st.
  - destruct st. cbn. by rewrite app_nil_r.
  - cbn [fold_left]. rewrite IH, emitted_cons. unfold metric.exportBar.
    destruct (Count bar =? 0); [done|].
    cbn. by rewrite <- app_assoc.
Qed.

Lemma exportBars_unfold bars :
  prometheusgo.Metric_Histogram (metric.exportBars bars) =
  {| prometheusgo.SampleCount := fold_left runningCount (emitted bars) 0;
     prometheusgo.SampleSum := sumOfEmitted bars;
     prometheusgo.Buckets := cumulativeBuckets 0 (emitted bars) |}.
Proof. unfold metric.exportBars. by rewrite fold_exportBar. Qed.

Lemma cumulativeBuckets_upperBounds running bars :
  Forall2 (λ b bar, prometheusgo.UpperBound b = inject_Z (To bar))
    (cumulativeBuckets running bars) bars.
Proof.
  revert running. induction bars as [|bar bars IH]; intros running; cbn;
    constructor; auto.
Qed.

Lemma emitted_Forall (Φ : Bar → Prop) bars :
  Forall Φ bars → Forall (λ bar, Φ bar ∧ Count bar ≠ 0) (emitted bars).
Proof.
  intros HΦ. apply list.Forall_forall. intros bar [Hne Hin]%list_elem_of_filter.
  split; [|done]. by eapply list.Forall_forall in HΦ.
Qed.

Lemma sumCounts_cons bar bars : sumCounts (bar :: bars) = Count bar + sumCounts bars.
Proof. reflexivity. Qed.

Lemma sumCounts_nonneg bars : Forall (λ bar, 0 ≤ Count bar) bars → 0 ≤ sumCounts bars.
Proof.
  induction 1 as [|bar bars Hnn _ IH]; [done|]. rewrite sumCounts_cons. lia.
Qed.

Lemma emitted_sumCounts bars : sumCounts (emitted bars) = sumCounts bars.
Proof.
  induction bars as [|bar bars IH]; [done|].
  rewrite emitted_cons, sumCounts_cons.
  destruct (Z.eqb_spec (Count bar) 0); rewrite ?sumCounts_cons; lia.
Qed.

Lemma emitted_ascending bars :
  StronglySorted (λ a b, To a < To b) bars →
  StronglySorted (λ a b, To a < To b) (emitted bars).
Proof.
  induction 1 as [|bar bars _ IH Hall]; [constructor|].
  rewrite emitted_cons. destruct (Count bar =? 0); [done|].
  constructor; [done|].
  apply list.Forall_forall. intros b [_ Hin]%list_elem_of_filter.
  by eapply list.Forall_forall in Hall.
Qed.

Lemma uint64_small x : 0 ≤ x < 2 ^ 64 → metric.uint64 x = x.
Proof. intros. unfold metric.uint64. by apply Z.mod_small. Qed.

Lemma runningCount_exact running bar :
  0 ≤ running → 0 ≤ Count bar → running + Count bar < 2 ^ 64 →
  runningCount running bar = running + Count bar.
Proof.
  intros. unfold runningCount. rewrite (uint64_small (Count bar)) by lia.
  apply uint64_small. lia.
Qed.

(** Without overflow the running count is the exact partial sum: every
    emitted count lies strictly above the count before it and at most at
    the total. *)
Lemma cumulativeBuckets_counts running bars :
  0 ≤ running →
  Forall (λ bar, 0 ≤ Count bar ∧ Count bar ≠ 0) bars →
  running + sumCounts bars < 2 ^ 64 →
  Forall (λ b, running < prometheusgo.CumulativeCount b ≤ running + sumCounts bars)
    (cumulativeBuckets running bars)
  ∧ StronglySorted (λ a b, prometheusgo.CumulativeCount a < prometheusgo.CumulativeCount b)
      (cumulativeBuckets running bars)
  ∧ fold_left runningCount bars running = running + sumCounts bars.
Proof.
  intros Hrun Hall. revert running Hrun.
  induction Hall as [|bar bars [Hnn Hnz] Hall IH]; intros running Hrun Htot.
  - cbn. repeat split; [constructor..|lia].
  - rewrite sumCounts_cons in Htot |- *.
    assert (0 ≤ sumCounts bars).
    { apply sumCounts_nonneg. eapply Forall_impl; [exact Hall|]. by intros ? [? _]. }
    cbn [cumulativeBuckets fold_left]. rewrite runningCount_exact by lia.
    destruct (IH (running + Count bar)) as (Hbounds & Hsorted & Hfold); [lia..|].
    split; [|split].
    + constructor; [cbn; lia|].
      eapply Forall_impl; [exact Hbounds|]. cbn. intros; lia.
    + constructor; [done|].
      eapply Forall_impl; [exact Hbounds|]. cbn. intros; lia.
    + rewrite Hfold. lia.
Qed.

Lemma cumulativeBuckets_last running bars b :
  last (cumulativeBuckets running bars) = Some b →
  prometheusgo.CumulativeCount b = fold_left runningCount bars running.
Proof.
  revert running. induction bars as [|bar bars IH]; intros running; [done|].
  cbn [cumulativeBuckets fold_left]. destruct bars as [|bar' bars].
  - cbn. by intros [= <-].
  - intros Hlast. by apply IH.
Qed.

Lemma cumulativeBuckets_ascending running bars :
  StronglySorted (λ a b, To a < To b) bars →
  StronglySorted (λ a b, (prometheusgo.UpperBound a < prometheusgo.UpperBound b)%Q)
    (cumulativeBuckets running bars).
Proof.
  intros Hsorted. revert running.
  induction Hsorted as [|bar bars _ IH Hall]; intros running; cbn; constructor; [done|].
  clear IH. generalize (runningCount running bar) as r. clear running.
  induction Hall as [|bar' bars' Hlt _ IH]; intros r; cbn; constructor.
  - cbn. by rewrite <- Zlt_Qlt.
  - apply IH.
Qed.

Lemma exportBars_wellFormed bars :
  barsOfDistribution bars →
  wellFormedExposition (prometheusgo.Metric_Histogram (metric.exportBars bars)).
Proof.
  intros [Hasc Hnn Htot]. rewrite exportBars_unfold.
  destruct (cumulativeBuckets_counts 0 (emitted bars)) as (_ & Hsorted & _);
    [done|by apply emitted_Forall|by rewrite emitted_sumCounts|].
  split; cbn.
  - by apply cumulativeBuckets_ascending, emitted_ascending.
  - clear -Hsorted. induction Hsorted as [|b bs _ IH Hall]; constructor; [done|].
    eapply Forall_impl; [exact Hall|]. cbn. intros; lia.
  - apply cumulativeBuckets_last.
Qed.

End ExportLoop.

(** ** The representation invariant *)

Section Invariant.
Context {P : Primitive} {L : Lawful P}.

Implicit Types (hh : metric.HdrHistogram) (w : WindowedHistogram) (x : Histogram).

Lemma recordOrMax_Highest maxVal v x :
  HighestTrackableValue (metric.recordOrMax maxVal v x) = HighestTrackableValue x.
Proof.
  unfold metric.recordOrMax.
  destruct (RecordValue x v) eqn:Hv; [by eapply RecordValue_Highest|].
  destruct (RecordValue x maxVal) eqn:Hmax; [by eapply RecordValue_Highest|done].
Qed.

Lemma NewHdrHistogram_Invariant metadata now duration maxVal sigFigs hh :
  metric.NewHdrHistogram metadata now duration maxVal sigFigs = Some hh →
  Invariant hh.
Proof.
  unfold metric.NewHdrHistogram, NewWindowed.
  destruct (New 0 maxVal sigFigs) as [fresh|] eqn:Hnew; [|done].
  intros [= <-]. pose proof (New_Highest _ _ _ _ Hnew).
  split; cbn; [done| |done..]. by repeat constructor.
Qed.

Lemma RecordValue_Invariant hh v : Invariant hh → Invariant (metric.RecordValue hh v).
Proof.
  intros [Hc Hs Hm Ht]. split; cbn; [|apply Forall_alter; [done|]|done..].
  - by rewrite recordOrMax_Highest.
  - intros x _. by rewrite recordOrMax_Highest.
Qed.

Lemma Tick_Invariant now hh : Invariant hh → Invariant (metric.Tick now hh).
Proof.
  intros [Hc Hs Hm Ht]. unfold metric.Tick, tick.Tick. rewrite Ht.
  split; cbn; [done| |done..].
  apply Forall_alter; [done|]. intros x _. by rewrite Reset_Highest.
Qed.

Lemma maybeTick_cases now hh :
  (tick.isDue now (metric.Ticker hh) = true ∧ metric.maybeTick now hh = metric.Tick now hh)
  ∨ (tick.isDue now (metric.Ticker hh) = false ∧ metric.maybeTick now hh = hh).
Proof.
  unfold metric.maybeTick, metric.Tick, tick.MaybeTick.
  destruct (tick.isDue now (metric.Ticker hh)); [left|right]; [done|].
  split; [done|]. by destruct hh.
Qed.

Lemma maybeTick_Invariant now hh : Invariant hh → Invariant (metric.maybeTick now hh).
Proof.
  intros Hinv. destruct (maybeTick_cases now hh) as [[_ ->]|[_ ->]]; [|done].
  by apply Tick_Invariant.
Qed.

Lemma exec_Invariant hh (c : calls.Call) : Invariant hh → Invariant (calls.exec hh c).
Proof.
  intros Hinv. destruct c; cbn; try done.
  - by apply RecordValue_Invariant.
  - by apply maybeTick_Invariant.
  - by apply Tick_Invariant.
  - by apply maybeTick_Invariant.
  - by apply maybeTick_Invariant.
Qed.

Lemma run_Invariant hh (cs : list calls.Call) : Invariant hh → Invariant (calls.run hh cs).
Proof.
  revert hh. induction cs as [|c cs IH]; intros hh Hinv; [done|].
  cbn. by apply IH, exec_Invariant.
Qed.

End Invariant.

(** ** The range the library computes *)

Section Range.

Implicit Types (fuel : nat) (maxValue s lim j : Z).

Lemma doubleUntil_ge fuel maxValue s lim :
  doubleUntil fuel maxValue s = Some lim → maxValue ≤ lim.
Proof.
  revert s. induction fuel as [|fuel IH]; intros s; [done|]. cbn.
  destruct (Z.ltb_spec s maxValue); [apply IH|]. intros [= <-]. lia.
Qed.

(** The range covers [maxValue]. *)
Lemma smallestUntrackableValue_ge maxValue sigfigs lim :
  smallestUntrackableValue maxValue sigfigs = Some lim → maxValue ≤ lim.
Proof. apply doubleUntil_ge. Qed.

Lemma int64_small x : - 2 ^ 63 ≤ x < 2 ^ 63 → int64 x = x.
Proof. intros Hx. unfold int64. rewrite Z.mod_small; lia. Qed.

(** From a power of two the loop ends at the first power of two that is not
    below [maxValue], as long as [maxValue] is at most 2^62. *)
Lemma doubleUntil_pow2 fuel maxValue j :
  0 ≤ j ≤ 62 → (Z.to_nat (62 - j) < fuel)%nat → maxValue ≤ 2 ^ 62 →
  ∃ k, j ≤ k ≤ 62 ∧ doubleUntil fuel maxValue (2 ^ j) = Some (2 ^ k)
       ∧ (k = j ∨ 2 ^ (k - 1) < maxValue).
Proof.
  revert j. induction fuel as [|fuel IH]; intros j Hj Hfuel Hmax; [lia|].
  cbn [doubleUntil]. destruct (Z.ltb_spec (2 ^ j) maxValue) as [Hlt|Hge].
  - assert (j < 62) as Hj'.
    { destruct (Z.lt_ge_cases j 62) as [|Hge]; [done|].
      replace j with 62 in Hlt by lia. lia. }
    assert (2 * 2 ^ j = 2 ^ (j + 1)) as Hdouble by (rewrite Z.pow_add_r; lia).
    assert (2 ^ (j + 1) ≤ 2 ^ 62) as Hle by (apply Z.pow_le_mono_r; lia).
    rewrite Hdouble, int64_small by lia.
    destruct (IH (j + 1)) as (k & Hk & Hrun & Hmin); [lia|lia|done|].
    exists k. split; [lia|]. split; [done|]. right.
    destruct Hmin as [->|Hmin]; [|done]. by replace (j + 1 - 1) with j by lia.
  - exists j. split; [lia|]. split; [done|]. by left.
Qed.

Lemma subBucketCount_1 : subBucketCount 1 = 2 ^ 5.
Proof. reflexivity. Qed.

(** With one significant figure, the constructor's loop ends for every
    [maxValue] up to 2^62. *)
Lemma smallestUntrackableValue_1 maxValue :
  maxValue ≤ 2 ^ 62 → is_Some (smallestUntrackableValue maxValue 1).
Proof.
  intros Hmax. unfold smallestUntrackableValue. rewrite subBucketCount_1.
  destruct (doubleUntil_pow2 64 maxValue 5) as (k & _ & -> & _);
    [lia|vm_compute; lia|done|]. done.
Qed.

End Range.

(** ** The reference distribution meets the contract *)

Lemma exact_Lawful : Lawful exact.primitive.
Proof.
  split; cbn.
  - intros lo hi sf x. unfold exact.New. repeat case_match; try done. by intros [= <-].
  - intros lo hi sf x. unfold exact.New. repeat case_match; try done. by intros [= <-].
  - intros x v x'. unfold exact.RecordValue, exact.TotalCount.
    case_match; [|done]. intros [= <-]. cbn [exact.samples length]. lia.
  - intros x v x'. unfold exact.RecordValue. case_match; [|done]. by intros [= <-].
  - done.
  - done.
  - intros x y _. unfold exact.TotalCount, exact.Merge. cbn. rewrite length_app. lia.
  - done.
Qed.

Lemma exact_tracksBelow (x : exact.Histogram) :
  tracksBelow (P := exact.primitive) (exact.untrackable x) x.
Proof.
  intros v. cbn. unfold exact.RecordValue.
  destruct (Z.leb_spec 0 v), (Z.ltb_spec v (exact.untrackable x)); cbn;
    (split; [intros [? ?]; (done || lia)|intros ?; (eauto || lia)]).
Qed.

Lemma exact_Bucketed : Bucketed exact.primitive.
Proof.
  split; cbn.
  - intros hi sf x. unfold exact.New. case_match; [|done].
    destruct (smallestUntrackableValue hi sf) as [lim|] eqn:Hlim; [|done].
    intros [= <-]. exists lim. split; [done|]. apply (exact_tracksBelow (exact.Build_Histogram _ _ _)).
  - intros x v x' u. unfold exact.RecordValue at 1. case_match; [|done].
    intros [= <-]. unfold exact.RecordValue. cbn.
    destruct ((0 <=? u) && (u <? exact.untrackable x)); [by split; eauto|].
    split; by intros [? ?].
  - intros x u. unfold exact.RecordValue. cbn.
    destruct ((0 <=? u) && (u <? exact.untrackable x)); [by split; eauto|].
    split; by intros [? ?].
Qed.

#[export] Existing Instance exact_Lawful.
#[export] Existing Instance exact_Bucketed.

Lemma exact_NewHdrHistogram now duration maxVal :
  maxVal ≤ 2 ^ 62 →
  metric.NewHdrHistogram exact.metadata now duration maxVal 1
  = Some (exact.initial now duration maxVal).
Proof.
  intros Hmax. destruct (smallestUntrackableValue_1 maxVal Hmax) as [lim Hlim].
  unfold metric.NewHdrHistogram, NewWindowed, exact.initial, exact.empty. cbn.
  unfold exact.New. cbn. by rewrite Hlim.
Qed.

Lemma exact_initial_Invariant now duration maxVal :
  Invariant (exact.initial now duration maxVal).
Proof. split; cbn; [done| |done..]. by repeat constructor. Qed.

Lemma exact_initial_Ranged now duration maxVal lim :
  smallestUntrackableValue maxVal 1 = Some lim →
  Ranged lim (exact.initial now duration maxVal).
Proof.
  intros Hlim.
  assert (tracksBelow (P := exact.primitive) lim (exact.empty maxVal)) as Hempty.
  { pose proof (exact_tracksBelow (exact.empty maxVal)) as Ht.
    unfold exact.empty in Ht at 1. cbn in Ht. by rewrite Hlim in Ht. }
  split; cbn; [done|]. by repeat (apply Forall_cons_2; [done|]).
Qed.

(** ** Recording *)

Section Recording.
Context {P : Primitive}.

Implicit Types (hh : metric.HdrHistogram) (x : Histogram) (cs : list calls.Call).

(** A value the distribution rejects is recorded as the maximum, and so is
    the maximum itself. *)
Lemma recordOrMax_rejected maxVal v x :
  RecordValue x v = None →
  metric.recordOrMax maxVal v x = metric.recordOrMax maxVal maxVal x.
Proof.
  intros Hv. unfold metric.recordOrMax. rewrite Hv.
  by destruct (RecordValue x maxVal).
Qed.

(** A value the distribution accepts is stored as it is: [maxVal] takes its
    place only where the distribution's own range check fails. *)
Lemma recordOrMax_accepted maxVal v x x' :
  RecordValue x v = Some x' → metric.recordOrMax maxVal v x = x'.
Proof. intros Hv. unfold metric.recordOrMax. by rewrite Hv. Qed.

End Recording.

(** C1, at the failing input: on an instance made for the values up to 10,
    [RecordValue(20)] does not have the effect of [RecordValue(10)].  The
    library's range for [maxValue] 10 ends at 32, so 20 is taken without an
    error, the re-recording of [maxVal] is not reached, and the value is
    stored as it is: the minimum and the mean, cumulative and windowed, are
    20 where recording the maximum gives 10. *)
Theorem RecordValue_above_maxVal_not_clamped :
  metric.NewHdrHistogram exact.metadata 0 100 10 1 = Some (exact.initial 0 100 10)
  ∧ metric.Min (metric.RecordValue (exact.initial 0 100 10) 20) = 20
  ∧ metric.Min (metric.RecordValue (exact.initial 0 100 10) 10) = 10
  ∧ metric.Mean (metric.RecordValue (exact.initial 0 100 10) 20) = 20%Q
  ∧ metric.MeanWindowed (metric.RecordValue (exact.initial 0 100 10) 20) = 20%Q
  ∧ metric.MeanWindowed (metric.RecordValue (exact.initial 0 100 10) 10) = 10%Q
  ∧ metric.RecordValue (exact.initial 0 100 10) 20
    ≠ metric.RecordValue (exact.initial 0 100 10) 10.
Proof.
  split; [reflexivity|]. repeat (split; [by vm_compute|]).
  intros Heq. apply (f_equal metric.Min) in Heq. vm_compute in Heq. discriminate.
Qed.

(** ** What a distribution takes *)

Section Ranged.
Context {P : Primitive} {L : Lawful P} {B : Bucketed P}.

Implicit Types (hh : metric.HdrHistogram) (x : Histogram) (cs : list calls.Call).

Lemma inRange_spec lim v : calls.inRange lim v = true ↔ 0 ≤ v < lim.
Proof. unfold calls.inRange. rewrite andb_true_iff, Z.leb_le, Z.ltb_lt. done. Qed.

Lemma tracksBelow_None lim x v :
  tracksBelow lim x → ¬ (0 ≤ v < lim) → RecordValue x v = None.
Proof.
  intros Hx Hv. destruct (RecordValue x v) eqn:Hrec; [|done].
  exfalso. apply Hv, Hx. by rewrite Hrec.
Qed.

Lemma recordOrMax_tracksBelow lim maxVal v x :
  tracksBelow lim x → tracksBelow lim (metric.recordOrMax maxVal v x).
Proof.
  intros Hx u. rewrite <- (Hx u). unfold metric.recordOrMax.
  destruct (RecordValue x v) eqn:Hv; [by eapply RecordValue_range|].
  destruct (RecordValue x maxVal) eqn:Hmax; [by eapply RecordValue_range|done].
Qed.

(** A value within the range is stored as it is. *)
Lemma recordOrMax_inRange lim maxVal v x :
  tracksBelow lim x → 0 ≤ v < lim →
  RecordValue x v = Some (metric.recordOrMax maxVal v x).
Proof.
  intros Hx Hv. destruct (proj2 (Hx v) Hv) as [x' Hx'].
  by rewrite (recordOrMax_accepted _ _ _ _ Hx').
Qed.

(** A value outside the range is treated as [maxVal] is. *)
Lemma recordOrMax_outOfRange lim maxVal v x :
  tracksBelow lim x → ¬ (0 ≤ v < lim) →
  metric.recordOrMax maxVal v x = metric.recordOrMax maxVal maxVal x.
Proof. intros Hx Hv. by eapply recordOrMax_rejected, tracksBelow_None. Qed.

(** The sample is counted iff the value or [maxVal] is within the range. *)
Lemma recordOrMax_stores lim maxVal v x :
  tracksBelow lim x →
  TotalCount (metric.recordOrMax maxVal v x)
  = TotalCount x + (if calls.stores lim maxVal v then 1 else 0).
Proof.
  intros Hx. unfold calls.stores.
  destruct (calls.inRange lim v) eqn:Hv.
  - apply inRange_spec in Hv. cbn.
    by eapply RecordValue_TotalCount, recordOrMax_inRange.
  - assert (¬ (0 ≤ v < lim)) as Hv' by (rewrite <- inRange_spec, Hv; done).
    rewrite (recordOrMax_outOfRange lim) by done. cbn.
    destruct (calls.inRange lim maxVal) eqn:Hmax.
    + apply inRange_spec in Hmax.
      by eapply RecordValue_TotalCount, recordOrMax_inRange.
    + assert (¬ (0 ≤ maxVal < lim)) as Hmax' by (rewrite <- inRange_spec, Hmax; done).
      unfold metric.recordOrMax. rewrite (tracksBelow_None lim) by done. lia.
Qed.

Lemma Reset_tracksBelow lim x : tracksBelow lim x → tracksBelow lim (Reset x).
Proof. intros Hx u. by rewrite Reset_range. Qed.

(** What [NewHdrHistogram] returns has the range the library computes for
    [maxVal], which covers [maxVal]. *)
Lemma NewHdrHistogram_Ranged metadata now duration maxVal sigFigs hh :
  metric.NewHdrHistogram metadata now duration maxVal sigFigs = Some hh →
  ∃ lim, smallestUntrackableValue maxVal sigFigs = Some lim
    ∧ maxVal ≤ lim ∧ Ranged lim hh.
Proof.
  unfold metric.NewHdrHistogram, NewWindowed.
  destruct (New 0 maxVal sigFigs) as [fresh|] eqn:Hnew; [|done].
  intros [= <-]. destruct (New_range _ _ _ Hnew) as (lim & Hlim & Hfresh).
  exists lim. split; [done|]. split; [by eapply smallestUntrackableValue_ge|].
  split; cbn; [done|]. by repeat (apply Forall_cons_2; [done|]).
Qed.

Lemma RecordValue_Ranged lim hh v : Ranged lim hh → Ranged lim (metric.RecordValue hh v).
Proof.
  intros [Hc Hs]. split; cbn.
  - by apply recordOrMax_tracksBelow.
  - apply Forall_alter; [done|]. intros x _. by apply recordOrMax_tracksBelow.
Qed.

Lemma Tick_Ranged lim now hh :
  Invariant hh → Ranged lim hh → Ranged lim (metric.Tick now hh).
Proof.
  intros [_ _ _ Ht] [Hc Hs]. unfold metric.Tick, tick.Tick. rewrite Ht.
  split; cbn; [done|]. apply Forall_alter; [done|]. intros x _. by apply Reset_tracksBelow.
Qed.

Lemma maybeTick_Ranged lim now hh :
  Invariant hh → Ranged lim hh → Ranged lim (metric.maybeTick now hh).
Proof.
  intros Hinv Hr. destruct (maybeTick_cases now hh) as [[_ ->]|[_ ->]]; [|done].
  by apply Tick_Ranged.
Qed.

Lemma exec_Ranged lim hh (c : calls.Call) :
  Invariant hh → Ranged lim hh → Ranged lim (calls.exec hh c).
Proof.
  intros Hinv Hr. destruct c; cbn; try done.
  - by apply RecordValue_Ranged.
  - by apply maybeTick_Ranged.
  - by apply Tick_Ranged.
  - by apply maybeTick_Ranged.
  - by apply maybeTick_Ranged.
Qed.

Lemma run_Ranged lim hh cs :
  Invariant hh → Ranged lim hh → Ranged lim (calls.run hh cs).
Proof.
  revert hh. induction cs as [|c cs IH]; intros hh Hinv Hr; [done|].
  cbn. apply IH; [by apply exec_Invariant|by apply exec_Ranged].
Qed.

End Ranged.

(** ** Counting *)

Section Counting.
Context {P : Primitive} {L : Lawful P} {B : Bucketed P}.

Implicit Types (hh : metric.HdrHistogram) (x : Histogram) (cs : list calls.Call).

Lemma maybeTick_cumulative now hh :
  metric.cumulative (metric.maybeTick now hh) = metric.cumulative hh
  ∧ metric.maxVal (metric.maybeTick now hh) = metric.maxVal hh.
Proof. unfold metric.maybeTick. by destruct (tick.MaybeTick _ _ _). Qed.

Lemma exec_maxVal hh (c : calls.Call) : metric.maxVal (calls.exec hh c) = metric.maxVal hh.
Proof. destruct c; try done; apply maybeTick_cumulative. Qed.

Lemma run_maxVal hh cs : metric.maxVal (calls.run hh cs) = metric.maxVal hh.
Proof.
  revert hh. induction cs as [|c cs IH]; intros hh; [done|].
  cbn [calls.run fold_left]. fold (calls.run (calls.exec hh c) cs).
  by rewrite IH, exec_maxVal.
Qed.

Lemma exec_TotalCount lim hh (c : calls.Call) :
  Ranged lim hh →
  TotalCount (metric.cumulative (calls.exec hh c))
  = TotalCount (metric.cumulative hh)
    + (if calls.isStored lim (metric.maxVal hh) c then 1 else 0).
Proof.
  intros [Hc _].
  destruct c; cbn; rewrite ?(proj1 (maybeTick_cumulative _ _)); try lia.
  by apply recordOrMax_stores.
Qed.

Lemma recorded_cons (c : calls.Call) cs :
  calls.recorded (c :: cs) = (if calls.isRecordValue c then 1 else 0) + calls.recorded cs.
Proof.
  unfold calls.recorded. rewrite filter_cons.
  destruct (calls.isRecordValue c); case_decide; try done; cbn [length]; lia.
Qed.

Lemma stored_cons lim maxVal (c : calls.Call) cs :
  calls.stored lim maxVal (c :: cs)
  = (if calls.isStored lim maxVal c then 1 else 0) + calls.stored lim maxVal cs.
Proof.
  unfold calls.stored. rewrite filter_cons.
  destruct (calls.isStored lim maxVal c); case_decide; try done; cbn [length]; lia.
Qed.

(** Not every call leaves a sample; where [maxVal] is within the range,
    every call does. *)
Lemma stored_le_recorded lim maxVal cs :
  0 ≤ calls.stored lim maxVal cs ≤ calls.recorded cs.
Proof.
  induction cs as [|c cs IH]; [done|]. rewrite stored_cons, recorded_cons.
  destruct c; cbn; try lia. destruct (calls.stores lim maxVal v); lia.
Qed.

Lemma stored_recorded lim maxVal cs :
  0 ≤ maxVal < lim → calls.stored lim maxVal cs = calls.recorded cs.
Proof.
  intros Hmax. apply inRange_spec in Hmax.
  induction cs as [|c cs IH]; [done|]. rewrite stored_cons, recorded_cons, IH.
  destruct c; cbn; try done. unfold calls.stores. rewrite Hmax, orb_true_r. done.
Qed.

Lemma run_app hh cs cs' : calls.run hh (cs ++ cs') = calls.run (calls.run hh cs) cs'.
Proof. apply fold_left_app. Qed.

Lemma run_TotalCount lim hh cs :
  Invariant hh → Ranged lim hh →
  TotalCount (metric.cumulative (calls.run hh cs))
  = TotalCount (metric.cumulative hh) + calls.stored lim (metric.maxVal hh) cs.
Proof.
  revert hh. induction cs as [|c cs IH]; intros hh Hinv Hr.
  - cbn. unfold calls.stored. cbn. lia.
  - cbn [calls.run fold_left]. fold (calls.run (calls.exec hh c) cs).
    rewrite IH, (exec_TotalCount lim), stored_cons, exec_maxVal;
      [lia|done|by apply exec_Invariant|by apply exec_Ranged].
Qed.

(** The count of [Total] on a constructed instance: the calls that left a
    sample. *)
Lemma Total_stored metadata now duration maxVal sigFigs hh :
  metric.NewHdrHistogram metadata now duration maxVal sigFigs = Some hh →
  ∃ lim, smallestUntrackableValue maxVal sigFigs = Some lim ∧ maxVal ≤ lim
    ∧ ∀ cs, (metric.Total (calls.run hh cs)).1 = calls.stored lim maxVal cs.
Proof.
  intros Hnew.
  pose proof (NewHdrHistogram_Invariant _ _ _ _ _ _ Hnew) as Hinv.
  destruct (NewHdrHistogram_Ranged _ _ _ _ _ _ Hnew) as (lim & Hlim & Hle & Hr).
  assert (metric.maxVal hh = maxVal ∧ TotalCount (metric.cumulative hh) = 0) as [Hmv H0].
  { revert Hnew. unfold metric.NewHdrHistogram, NewWindowed.
    destruct (New 0 maxVal sigFigs) as [fresh|] eqn:Hfresh; [|done].
    intros [= <-]. split; [done|]. by eapply New_TotalCount. }
  exists lim. split; [done|]. split; [done|]. intros cs.
  cbn. rewrite (run_TotalCount lim), Hmv by done. lia.
Qed.

End Counting.

(** C3, at the failing input: on an instance made for the values up to
    1024 the three calls [RecordValue(5000)], [RecordValue(1024)] and
    [RecordValue(7)] leave [Total] with count 1.  The library's range for
    [maxValue] 1024 ends at 1024 itself, so 5000 is answered with an error
    and so is the re-recording of [maxVal], whose error is discarded: the
    first two calls store nothing. *)
Theorem Total_drops_samples_at_range_end :
  metric.NewHdrHistogram exact.metadata 0 100 1024 1 = Some (exact.initial 0 100 1024)
  ∧ calls.recorded [calls.RecordValue 5000; calls.RecordValue 1024; calls.RecordValue 7] = 3
  ∧ (metric.Total (calls.run (exact.initial 0 100 1024) [calls.RecordValue 5000])).1 = 0
  ∧ (metric.Total (calls.run (exact.initial 0 100 1024)
       [calls.RecordValue 5000; calls.RecordValue 1024])).1 = 0
  ∧ (metric.Total (calls.run (exact.initial 0 100 1024)
       [calls.RecordValue 5000; calls.RecordValue 1024; calls.RecordValue 7])).1 = 1.
Proof. repeat split; reflexivity. Qed.

(** ** Exposition records *)

(** C5: for every sequence of bars the exporters' loop emits one bucket for
    each bar whose count is not zero, in the order of the bars and with the
    bar's upper bound, and none for the others; the reported sum is the sum
    of upper bound times count over these bars. *)
Theorem exportBars_emits_nonzero_bars (bars : list Bar) :
  Forall2 (λ b bar, prometheusgo.UpperBound b = inject_Z (To bar))
    (prometheusgo.Buckets (prometheusgo.Metric_Histogram (metric.exportBars bars)))
    (filter (λ bar, Count bar ≠ 0) bars)
  ∧ prometheusgo.SampleSum (prometheusgo.Metric_Histogram (metric.exportBars bars))
    = sumOfEmitted bars.
Proof.
  rewrite exportBars_unfold. cbn. split; [|done].
  apply cumulativeBuckets_upperBounds.
Qed.

Section Exposition.
Context {P : Primitive}.

(** Both exporters run the loop, one over the bars of the cumulative
    distribution, the other over the bars of the merged ring, each after
    the rotation check. *)
Lemma ToPrometheusMetric_exportBars now (hh : metric.HdrHistogram) :
  (metric.ToPrometheusMetric now hh).2
  = metric.exportBars (Distribution (metric.cumulative hh)).
Proof.
  unfold metric.ToPrometheusMetric. cbn.
  by rewrite (proj1 (maybeTick_cumulative now hh)).
Qed.

Lemma ToPrometheusMetricWindowed_exportBars now (hh : metric.HdrHistogram) :
  (metric.ToPrometheusMetricWindowed now hh).2
  = metric.exportBars
      (Distribution (WindowedHistogram_Merge (metric.sliding (metric.maybeTick now hh)))).
Proof. reflexivity. Qed.

(** C4: in the record of either exporter the buckets are in increasing
    order of upper bound, their cumulative counts do not decrease along
    that order, and the last bucket's cumulative count is the sample count.
    The bars are those of a distribution: ascending, with counts that are
    not negative and total less than 2^64. *)
Theorem exposition_wellFormed now (hh : metric.HdrHistogram) :
  barsOfDistribution (Distribution (metric.cumulative hh)) →
  barsOfDistribution
    (Distribution (WindowedHistogram_Merge (metric.sliding (metric.maybeTick now hh)))) →
  wellFormedExposition (prometheusgo.Metric_Histogram (metric.ToPrometheusMetric now hh).2)
  ∧ wellFormedExposition
      (prometheusgo.Metric_Histogram (metric.ToPrometheusMetricWindowed now hh).2).
Proof.
  intros Hc Hw. rewrite ToPrometheusMetric_exportBars, ToPrometheusMetricWindowed_exportBars.
  split; by apply exportBars_wellFormed.
Qed.

End Exposition.

Lemma exact_exposed_cumulative :
  barsOfDistribution (Distribution (metric.cumulative exact.exposed)).
Proof. split; vm_compute; [repeat (constructor; try done)..|done]. Qed.

Lemma exact_exposed_windowed :
  barsOfDistribution
    (Distribution
       (WindowedHistogram_Merge (metric.sliding (metric.maybeTick 60 exact.exposed)))).
Proof. split; vm_compute; [repeat (constructor; try done)..|done]. Qed.

Lemma exposition_wellFormed_witness :
  barsOfDistribution (Distribution (metric.cumulative exact.exposed))
  ∧ barsOfDistribution
      (Distribution
         (WindowedHistogram_Merge (metric.sliding (metric.maybeTick 60 exact.exposed))))
  ∧ wellFormedExposition
      (prometheusgo.Metric_Histogram (metric.ToPrometheusMetric 60 exact.exposed).2)
  ∧ wellFormedExposition
      (prometheusgo.Metric_Histogram (metric.ToPrometheusMetricWindowed 60 exact.exposed).2).
Proof.
  exact (conj exact_exposed_cumulative (conj exact_exposed_windowed
    (exposition_wellFormed 60 exact.exposed
       exact_exposed_cumulative exact_exposed_windowed))).
Defined.

(** ** Rotation *)

Section Rotation.
Context {P : Primitive}.

Implicit Types (hh : metric.HdrHistogram).

Lemma Tick_fields now hh :
  tick.onTick (metric.Ticker hh) = WindowedHistogram_Rotate →
  metric.cumulative (metric.Tick now hh) = metric.cumulative hh
  ∧ metric.sliding (metric.Tick now hh) = WindowedHistogram_Rotate (metric.sliding hh)
  ∧ tick.lastRotation (metric.Ticker (metric.Tick now hh)) = now.
Proof. intros Ht. unfold metric.Tick, tick.Tick. cbn. by rewrite Ht. Qed.

(** C9: [Inspect] and [ToPrometheusMetric] run the rotation check.  When a
    rotation is due the call rotates the ring and sets the time of the last
    rotation to the time of the call; when none is due the receiver is left
    as it was.  In both cases the cumulative distribution is the one before
    the call, and it is the one [ToPrometheusMetric] exports. *)
Theorem Inspect_ToPrometheusMetric_rotate {A : Type} now hh (f : metric.HdrHistogram → A) :
  Invariant hh →
  metric.cumulative (metric.Inspect now hh f).1 = metric.cumulative hh
  ∧ metric.cumulative (metric.ToPrometheusMetric now hh).1 = metric.cumulative hh
  ∧ (metric.ToPrometheusMetric now hh).2
    = metric.exportBars (Distribution (metric.cumulative hh))
  ∧ (tick.isDue now (metric.Ticker hh) = true →
     metric.sliding (metric.Inspect now hh f).1 = WindowedHistogram_Rotate (metric.sliding hh)
     ∧ tick.lastRotation (metric.Ticker (metric.Inspect now hh f).1) = now
     ∧ (metric.ToPrometheusMetric now hh).1 = (metric.Inspect now hh f).1)
  ∧ (tick.isDue now (metric.Ticker hh) = false →
     (metric.Inspect now hh f).1 = hh ∧ (metric.ToPrometheusMetric now hh).1 = hh).
Proof.
  intros [_ _ _ Ht]. cbn [metric.Inspect metric.ToPrometheusMetric fst].
  repeat split; try apply maybeTick_cumulative.
  - apply ToPrometheusMetric_exportBars.
  - destruct (maybeTick_cases now hh) as [[_ ->]|[? _]]; [|congruence].
    by apply Tick_fields.
  - destruct (maybeTick_cases now hh) as [[_ ->]|[? _]]; [|congruence].
    by apply Tick_fields.
  - destruct (maybeTick_cases now hh) as [[? _]|[_ ->]]; [congruence|done].
  - destruct (maybeTick_cases now hh) as [[? _]|[_ ->]]; [congruence|done].
Qed.

(** When a rotation is due, check-then-merge computes over the rotated
    ring. *)
Lemma TotalWindowed_spec_due now hh :
  Invariant hh → tick.isDue now (metric.Ticker hh) = true →
  (TotalWindowed_spec now hh).2 = metric.TotalWindowed (metric.Tick now hh)
  ∧ metric.sliding (metric.Tick now hh) = WindowedHistogram_Rotate (metric.sliding hh).
Proof.
  intros [_ _ _ Ht] Hdue. unfold TotalWindowed_spec. cbn [snd].
  destruct (maybeTick_cases now hh) as [[_ ->]|[? _]]; [|congruence].
  split; [done|]. by apply Tick_fields.
Qed.


End Rotation.

Lemma Inspect_ToPrometheusMetric_rotate_witness :
  Invariant exact.scenario
  ∧ metric.cumulative (metric.Inspect 120 exact.scenario metric.Total).1
    = metric.cumulative exact.scenario
  ∧ metric.sliding (metric.Inspect 120 exact.scenario metric.Total).1
    = WindowedHistogram_Rotate (metric.sliding exact.scenario)
  ∧ tick.lastRotation (metric.Ticker (metric.Inspect 120 exact.scenario metric.Total).1) = 120.
Proof.
  pose proof (run_Invariant (exact.initial 0 100 1000)
    [calls.RecordValue 10; calls.RecordValue 500; calls.RecordValue 2000]
    (exact_initial_Invariant 0 100 1000)) as Hinv.
  destruct (Inspect_ToPrometheusMetric_rotate 120 exact.scenario metric.Total Hinv)
    as (Hc & _ & _ & Hdue & _).
  destruct (Hdue eq_refl) as (Hs & Ht & _).
  exact (conj Hinv (conj Hc (conj Hs Ht))).
Defined.



(** ** Construction *)

Section Construction.
Context {P : Primitive}.

(** C8, amended: [NewHdrHistogram] checks nothing itself.  It returns an
    instance whenever the constructor of the distribution accepts the range
    [0 .. maxVal] and the precision, whatever [maxVal] and the duration
    are; the instance keeps [maxVal] as given, and its ring has the fixed
    size [WindowedHistogramWrapNum], which is not an input. *)
Theorem NewHdrHistogram_no_validation metadata now duration maxVal sigFigs :
  (is_Some (metric.NewHdrHistogram metadata now duration maxVal sigFigs)
   ↔ is_Some (New 0 maxVal sigFigs))
  ∧ ∀ hh, metric.NewHdrHistogram metadata now duration maxVal sigFigs = Some hh →
      metric.maxVal hh = maxVal
      ∧ Z.of_nat (length (h (metric.sliding hh))) = metric.WindowedHistogramWrapNum.
Proof.
  unfold metric.NewHdrHistogram, NewWindowed.
  destruct (New 0 maxVal sigFigs) as [fresh|]; split.
  - split; eauto.
  - by intros hh [= <-].
  - split; by intros [? [=]].
  - done.
Qed.

End Construction.

(** C8 as stated fails: a range of [0 .. 0], a negative maximum and a
    duration of zero are all accepted. *)
Lemma NewHdrHistogram_accepts_misconfiguration :
  metric.NewHdrHistogram exact.metadata 0 100 0 1 = Some (exact.initial 0 100 0)
  ∧ metric.NewHdrHistogram exact.metadata 0 100 (-1) 1 = Some (exact.initial 0 100 (-1))
  ∧ metric.NewHdrHistogram exact.metadata 0 0 (-1) 1 = Some (exact.initial 0 0 (-1)).
Proof. repeat split. Qed.

(** ** Eviction from the window *)

Lemma mod_cover (n a i : nat) :
  (i < n)%nat → (n ≤ a)%nat → ∃ d, (d < n)%nat ∧ (d ≤ a)%nat ∧ ((a - d) mod n)%nat = i.
Proof.
  intros Hi Hn.
  pose proof (Nat.div_mod_eq a n) as Ha.
  pose proof (Nat.mod_upper_bound a n ltac:(lia)) as Hr.
  destruct (a `div` n)%nat as [|q] eqn:Hq; [lia|].
  destruct (le_lt_dec i (a `mod` n)%nat).
  - exists (a `mod` n - i)%nat. split; [lia|]. split; [lia|].
    symmetry. apply (Nat.mod_unique _ _ (S q)); lia.
  - exists (a `mod` n + n - i)%nat. split; [lia|]. split; [lia|].
    symmetry. apply (Nat.mod_unique _ _ q); lia.
Qed.

Section Eviction.
Context {P : Primitive} {L : Lawful P}.

Implicit Types (hh : metric.HdrHistogram) (w : WindowedHistogram) (cs : list calls.Call).

Lemma recentlyCleared_0 w : recentlyCleared 0 w.
Proof. intros d x Hd. lia. Qed.

Lemma Rotate_idx w : idx (WindowedHistogram_Rotate w) = S (idx w).
Proof. reflexivity. Qed.

Lemma Rotate_length w : length (h (WindowedHistogram_Rotate w)) = length (h w).
Proof. cbn. apply length_alter. Qed.

Lemma Rotate_recentlyCleared k w :
  recentlyCleared k w → recentlyCleared (S k) (WindowedHistogram_Rotate w).
Proof.
  intros Hw d x Hd Hle. rewrite Rotate_length, Rotate_idx. rewrite Rotate_idx in Hle.
  unfold WindowedHistogram_Rotate, updateCurrent, currentSlot. cbn [h idx].
  rewrite list_lookup_alter. case_decide as Hslot.
  - destruct (h w !! _); intros [= <-]. apply Reset_TotalCount.
  - destruct d as [|d]; [by rewrite Nat.sub_0_r in Hslot|].
    rewrite Nat.sub_succ. apply Hw; lia.
Qed.

(** A call other than [RecordValue] rotates the ring or leaves it alone. *)
Lemma exec_sliding hh (c : calls.Call) :
  Invariant hh → calls.isRecordValue c = false →
  metric.sliding (calls.exec hh c)
  = if calls.rotates hh c then WindowedHistogram_Rotate (metric.sliding hh)
    else metric.sliding hh.
Proof.
  intros [_ _ _ Ht] Hc.
  destruct c; try done; cbn [calls.exec calls.rotates metric.Inspect
    metric.ToPrometheusMetric metric.ToPrometheusMetricWindowed
    metric.toPrometheusMetricWindowedLocked fst].
  - destruct (maybeTick_cases now hh) as [[-> ->]|[-> ->]]; [by apply Tick_fields|done].
  - by apply Tick_fields.
  - destruct (maybeTick_cases now hh) as [[-> ->]|[-> ->]]; [by apply Tick_fields|done].
  - destruct (maybeTick_cases now hh) as [[-> ->]|[-> ->]]; [by apply Tick_fields|done].
Qed.

Lemma run_recentlyCleared hh cs k :
  Invariant hh →
  Forall (λ c, calls.isRecordValue c = false) cs →
  recentlyCleared k (metric.sliding hh) →
  recentlyCleared (calls.rotations hh cs + k) (metric.sliding (calls.run hh cs))
  ∧ idx (metric.sliding (calls.run hh cs))
    = (idx (metric.sliding hh) + calls.rotations hh cs)%nat
  ∧ length (h (metric.sliding (calls.run hh cs))) = length (h (metric.sliding hh)).
Proof.
  intros Hinv Hcs. revert hh k Hinv.
  induction Hcs as [|c cs Hc _ IH]; intros hh k Hinv Hk.
  - cbn. split; [done|]. split; [lia|done].
  - cbn [calls.run fold_left calls.rotations]. fold (calls.run (calls.exec hh c) cs).
    pose proof (exec_sliding hh c Hinv Hc) as Hstep.
    destruct (calls.rotates hh c).
    + destruct (IH (calls.exec hh c) (S k)) as (Hclr & Hidx & Hlen);
        [by apply exec_Invariant|rewrite Hstep; by apply Rotate_recentlyCleared|].
      rewrite Hidx, Hlen, Hstep, Rotate_idx, Rotate_length.
      split; [|split; [lia|done]].
      by replace (1 + calls.rotations (calls.exec hh c) cs + k)%nat
        with (calls.rotations (calls.exec hh c) cs + S k)%nat by lia.
    + destruct (IH (calls.exec hh c) k) as (Hclr & Hidx & Hlen);
        [by apply exec_Invariant|by rewrite Hstep|].
      rewrite Hidx, Hlen, Hstep. done.
Qed.

Lemma recentlyCleared_all w k :
  recentlyCleared k w → (length (h w) ≤ k)%nat → (k ≤ idx w)%nat →
  Forall (λ x, TotalCount x = 0) (h w).
Proof.
  intros Hw Hlen Hidx. apply list.Forall_forall. intros x [i Hi]%list_elem_of_lookup_1.
  pose proof (lookup_lt_Some _ _ _ Hi) as Hlt.
  destruct (mod_cover (length (h w)) (idx w) i) as (d & Hd & Hda & Hmod); [lia..|].
  apply (Hw d); [lia..|]. by rewrite Hmod.
Qed.

(** The merge of slots of one range has the count of its starting point
    plus the counts of the slots. *)
Lemma fold_Merge_TotalCount (slots : list Histogram) (x : Histogram) :
  Forall (λ y, HighestTrackableValue y = HighestTrackableValue x) slots →
  TotalCount (fold_left Merge slots x)
  = TotalCount x + foldr (λ y acc, TotalCount y + acc) 0 slots.
Proof.
  revert x. induction slots as [|y slots IH]; intros x Hall; [cbn; lia|].
  apply Forall_cons in Hall as [Hy Hall]. cbn [fold_left foldr].
  rewrite IH, Merge_TotalCount; [lia|done|].
  eapply Forall_impl; [exact Hall|]. cbn. intros z ->. by rewrite Merge_Highest.
Qed.

Lemma Merge_TotalCount_empty w maxVal :
  Forall (λ y, HighestTrackableValue y = maxVal) (h w) →
  HighestTrackableValue (m w) = maxVal →
  Forall (λ x, TotalCount x = 0) (h w) →
  TotalCount (WindowedHistogram_Merge w) = 0.
Proof.
  intros Hs Hm Hempty. unfold WindowedHistogram_Merge.
  rewrite fold_Merge_TotalCount, Reset_TotalCount.
  - clear Hs. induction Hempty as [|y slots Hy _ IH]; cbn; lia.
  - eapply Forall_impl; [exact Hs|]. cbn. intros y ->. by rewrite Reset_Highest.
Qed.

(** The ring of a constructed instance keeps its [WindowedHistogramWrapNum]
    slots whatever is called on it. *)
Lemma exec_ring_size hh (c : calls.Call) :
  Invariant hh →
  length (h (metric.sliding (calls.exec hh c))) = length (h (metric.sliding hh)).
Proof.
  intros Hinv. destruct (calls.isRecordValue c) eqn:Hc.
  - destruct c; try done. cbn. apply length_alter.
  - rewrite (exec_sliding hh c Hinv Hc).
    destruct (calls.rotates hh c); [apply Rotate_length|done].
Qed.

Lemma run_ring_size metadata now duration maxVal sigFigs hh cs :
  metric.NewHdrHistogram metadata now duration maxVal sigFigs = Some hh →
  Z.of_nat (length (h (metric.sliding (calls.run hh cs)))) = metric.WindowedHistogramWrapNum.
Proof.
  intros Hnew. pose proof (NewHdrHistogram_Invariant _ _ _ _ _ _ Hnew) as Hinv.
  assert (Z.of_nat (length (h (metric.sliding hh))) = metric.WindowedHistogramWrapNum) as <-.
  { revert Hnew. unfold metric.NewHdrHistogram, NewWindowed.
    destruct (New 0 maxVal sigFigs); [|done]. by intros [= <-]. }
  f_equal. clear Hnew. revert hh Hinv.
  induction cs as [|c cs IH]; intros hh Hinv; [done|].
  cbn [calls.run fold_left]. fold (calls.run (calls.exec hh c) cs).
  rewrite IH by (by apply exec_Invariant). by apply exec_ring_size.
Qed.

(** C6: once a sequence of calls without [RecordValue] has rotated the
    ring as many times as it has slots, every slot has been cleared, no
    sample recorded before the sequence is left in the merge, and the count
    of [TotalWindowed] is zero. *)
Theorem TotalWindowed_evicts hh cs :
  Invariant hh →
  Forall (λ c, calls.isRecordValue c = false) cs →
  (length (h (metric.sliding hh)) ≤ calls.rotations hh cs)%nat →
  (metric.TotalWindowed (calls.run hh cs)).1 = 0.
Proof.
  intros Hinv Hcs Hrot.
  destruct (run_recentlyCleared hh cs 0 Hinv Hcs (recentlyCleared_0 _))
    as (Hclr & Hidx & Hlen).
  destruct (run_Invariant hh cs Hinv) as [_ Hs Hm _].
  cbn. eapply Merge_TotalCount_empty; [exact Hs|exact Hm|].
  apply (recentlyCleared_all _ _ Hclr); lia.
Qed.

End Eviction.

Lemma exact_scenario_Invariant : Invariant exact.scenario.
Proof. apply run_Invariant, exact_initial_Invariant. Qed.

Lemma TotalWindowed_evicts_witness :
  Invariant exact.scenario
  ∧ Forall (λ c, calls.isRecordValue c = false)
      [calls.Inspect 60; calls.TotalWindowed; calls.ToPrometheusMetric 120]
  ∧ (length (h (metric.sliding exact.scenario))
     ≤ calls.rotations exact.scenario
         [calls.Inspect 60; calls.TotalWindowed; calls.ToPrometheusMetric 120])%nat
  ∧ (metric.TotalWindowed exact.scenario).1 = 3
  ∧ (metric.TotalWindowed
       (calls.run exact.scenario
          [calls.Inspect 60; calls.TotalWindowed; calls.ToPrometheusMetric 120])).1 = 0.
Proof.
  assert (Forall (λ c, calls.isRecordValue c = false)
    [calls.Inspect 60; calls.TotalWindowed; calls.ToPrometheusMetric 120]) as Hcs
    by (repeat constructor).
  assert (length (h (metric.sliding exact.scenario))
     ≤ calls.rotations exact.scenario
         [calls.Inspect 60; calls.TotalWindowed; calls.ToPrometheusMetric 120])%nat as Hrot
    by (vm_compute; lia).
  exact (conj exact_scenario_Invariant (conj Hcs (conj Hrot (conj eq_refl
    (TotalWindowed_evicts exact.scenario _ exact_scenario_Invariant Hcs Hrot))))).
Defined.

(** ** Quantiles of an exposition record *)

Section Find.
Context {A : Type} (R : relation A).

Implicit Types (p : A → bool) (l : list A).

(** On a list sorted by [R], a weaker test finds an element at or before
    the one a stronger test finds. *)
Lemma find_weaker p1 p2 l b2 :
  (∀ x, p2 x = true → p1 x = true) →
  StronglySorted R l →
  find p2 l = Some b2 →
  ∃ b1, find p1 l = Some b1 ∧ (b1 = b2 ∨ R b1 b2).
Proof.
  intros Himp Hsorted. induction Hsorted as [|a l _ IH Hall]; [done|].
  cbn. destruct (p2 a) eqn:H2.
  - intros [= <-]. rewrite (Himp _ H2). eauto.
  - intros Hfind. destruct (p1 a) eqn:H1; [|by apply IH].
    exists a. split; [done|]. right.
    apply find_some in Hfind as [Hin _].
    eapply list.Forall_forall in Hall; [done|]. by apply list_elem_of_In.
Qed.

Lemma find_snoc p l b :
  Forall (λ x, p x = false) l → p b = true → find p (l ++ [b]) = Some b.
Proof.
  intros Hall Hb. induction Hall as [|a l Ha _ IH]; cbn; [by rewrite Hb|].
  by rewrite Ha.
Qed.

Lemma find_is_Some p l b : b ∈ l → p b = true → is_Some (find p l).
Proof.
  intros Hin Hb. destruct (find p l) eqn:Hfind; [eauto|].
  eapply find_none in Hfind; [|by apply list_elem_of_In]. congruence.
Qed.

End Find.

Section Quantile.

Implicit Types (bars : list Bar) (q : Q) (n c : Z).

Lemma inject_Z_pos n : 0 < n → (0 < inject_Z n)%Q.
Proof. intros Hn. change (inject_Z 0 < inject_Z n)%Q. by rewrite <- Zlt_Qlt. Qed.

Lemma fraction_full q n : 0 < n → (q <= 1)%Q → Qle_bool q (inject_Z n / inject_Z n) = true.
Proof.
  intros Hn Hq. apply Qle_bool_iff.
  pose proof (inject_Z_pos n Hn) as Hn'.
  apply Qle_shift_div_l; [done|].
  rewrite <- (Qmult_1_l (inject_Z n)) at 2.
  apply Qmult_le_compat_r; [done|]. by apply Qlt_le_weak.
Qed.

Lemma fraction_partial c n : c < n → 0 < n → Qle_bool 1 (inject_Z c / inject_Z n) = false.
Proof.
  intros Hc Hn. apply not_true_is_false. intros Hle%Qle_bool_iff.
  pose proof (inject_Z_pos n Hn) as Hn'.
  apply (Qle_not_lt _ _ Hle). apply Qlt_shift_div_r; [done|].
  rewrite Qmult_1_l. by rewrite <- Zlt_Qlt.
Qed.

(** What the quantile function sees of a record exported from the bars of
    a distribution: either no bucket and a sample count of zero, or buckets
    in strictly increasing order of upper bound and of cumulative count, the
    last of which carries the sample count. *)
Lemma exportBars_shape bars :
  barsOfDistribution bars →
  let r := prometheusgo.Metric_Histogram (metric.exportBars bars) in
  StronglySorted (λ a b, (prometheusgo.UpperBound a < prometheusgo.UpperBound b)%Q)
    (prometheusgo.Buckets r)
  ∧ StronglySorted (λ a b, prometheusgo.CumulativeCount a < prometheusgo.CumulativeCount b)
      (prometheusgo.Buckets r)
  ∧ Forall (λ b, 0 < prometheusgo.CumulativeCount b) (prometheusgo.Buckets r)
  ∧ (prometheusgo.Buckets r = [] → prometheusgo.SampleCount r = 0)
  ∧ (∀ b, last (prometheusgo.Buckets r) = Some b →
       prometheusgo.CumulativeCount b = prometheusgo.SampleCount r).
Proof.
  intros [Hasc Hnn Htot]. cbn zeta. rewrite exportBars_unfold. cbn.
  destruct (cumulativeBuckets_counts 0 (emitted bars)) as (Hbounds & Hsorted & Hfold);
    [done|by apply emitted_Forall|by rewrite emitted_sumCounts|].
  repeat split.
  - by apply cumulativeBuckets_ascending, emitted_ascending.
  - done.
  - eapply Forall_impl; [exact Hbounds|]. cbn. intros; lia.
  - destruct (emitted bars); [done|discriminate].
  - apply cumulativeBuckets_last.
Qed.

(** C7: on the record exported from the bars of a distribution the
    quantile is monotone in [q] up to 1; at 1 it is the upper bound of the
    last bucket, which no bucket's upper bound exceeds; and with a sample
    count of zero it is zero for every [q]. *)
Theorem ValueAtQuantileWindowed_contract bars :
  barsOfDistribution bars →
  (∀ q1 q2, (q1 <= q2)%Q → (q2 <= 1)%Q →
     (metric.HdrHistogram_ValueAtQuantileWindowed q1 (metric.exportBars bars)
      <= metric.HdrHistogram_ValueAtQuantileWindowed q2 (metric.exportBars bars))%Q)
  ∧ (∀ b, last (prometheusgo.Buckets
                  (prometheusgo.Metric_Histogram (metric.exportBars bars))) = Some b →
       metric.HdrHistogram_ValueAtQuantileWindowed 1 (metric.exportBars bars)
       = prometheusgo.UpperBound b
       ∧ Forall (λ b', (prometheusgo.UpperBound b' <= prometheusgo.UpperBound b)%Q)
           (prometheusgo.Buckets (prometheusgo.Metric_Histogram (metric.exportBars bars))))
  ∧ (prometheusgo.SampleCount (prometheusgo.Metric_Histogram (metric.exportBars bars)) = 0 →
     ∀ q, metric.HdrHistogram_ValueAtQuantileWindowed q (metric.exportBars bars) = 0%Q).
Proof.
  intros Hbars.
  destruct (exportBars_shape bars Hbars) as (Hub & Hcum & Hpos & Hnil & Hlast).
  unfold metric.HdrHistogram_ValueAtQuantileWindowed, metric.ValueAtQuantileWindowed.
  set (r := prometheusgo.Metric_Histogram (metric.exportBars bars)) in *.
  set (n := prometheusgo.SampleCount r) in *.
  set (test := λ q b, Qle_bool q (inject_Z (prometheusgo.CumulativeCount b) / inject_Z n)).
  assert (∀ b, last (prometheusgo.Buckets r) = Some b → 0 < n) as Hn.
  { intros b Hb. rewrite <- (Hlast b Hb).
    apply last_Some in Hb as [bs Hb]. rewrite Hb in Hpos.
    by apply Forall_app in Hpos as [_ [? _]%Forall_cons]. }
  split; [|split].
  - intros q1 q2 Hq Hq2. destruct (Z.eqb_spec n 0) as [|Hn0]; [apply Qle_refl|].
    destruct (last (prometheusgo.Buckets r)) as [b|] eqn:Hb.
    + specialize (Hn b eq_refl).
      assert (is_Some (find (test q2) (prometheusgo.Buckets r))) as [b2 Hb2].
      { apply (find_is_Some _ _ b).
        - apply last_Some in Hb as [bs ->]. apply elem_of_app. right. by left.
        - unfold test. rewrite (Hlast b eq_refl). by apply fraction_full. }
      destruct (find_weaker _ (test q1) (test q2) _ b2
                  (λ x Hx, proj2 (Qle_bool_iff _ _)
                     (Qle_trans _ _ _ Hq (proj1 (Qle_bool_iff _ _) Hx))) Hub Hb2)
        as (b1 & Hb1 & Hle).
      fold (test q1) (test q2). rewrite Hb1, Hb2.
      destruct Hle as [->|Hlt]; [apply Qle_refl|by apply Qlt_le_weak].
    + apply last_None in Hb. by apply Hnil in Hb.
  - intros b Hb. specialize (Hn b Hb). pose proof (Hlast b Hb) as Hcb.
    apply last_Some in Hb as [bs Hbs].
    destruct (Z.eqb_spec n 0) as [|_]; [lia|].
    fold (test 1%Q). rewrite Hbs in Hub, Hcum |- *. split.
    + rewrite find_snoc; [done| |unfold test; rewrite Hcb; by apply fraction_full].
      apply list.Forall_forall. intros b' Hb'. unfold test. apply fraction_partial; [|done].
      rewrite <- Hcb. eapply (StronglySorted_app_1_elem_of _ _ _ _ _ Hcum); [done|by left].
    + apply Forall_app. split; [|by repeat constructor; apply Qle_refl].
      apply list.Forall_forall. intros b' Hb'. apply Qlt_le_weak.
      eapply (StronglySorted_app_1_elem_of _ _ _ _ _ Hub); [done|by left].
  - intros H0 q. fold n. by rewrite H0.
Qed.

End Quantile.

Lemma ValueAtQuantileWindowed_contract_witness :
  barsOfDistribution (Distribution (metric.cumulative exact.exposed))
  ∧ (metric.HdrHistogram_ValueAtQuantileWindowed (1 # 2)
       (metric.exportBars (Distribution (metric.cumulative exact.exposed)))
     <= metric.HdrHistogram_ValueAtQuantileWindowed (9 # 10)
          (metric.exportBars (Distribution (metric.cumulative exact.exposed))))%Q
  ∧ metric.HdrHistogram_ValueAtQuantileWindowed (1 # 2)
      (metric.exportBars (Distribution (metric.cumulative exact.exposed))) = 5%Q
  ∧ metric.HdrHistogram_ValueAtQuantileWindowed 1
      (metric.exportBars (Distribution (metric.cumulative exact.exposed))) = 10%Q.
Proof.
  destruct (ValueAtQuantileWindowed_contract
    (Distribution (metric.cumulative exact.exposed)) exact_exposed_cumulative) as (Hmono & _ & _).
  refine (conj exact_exposed_cumulative (conj (Hmono (1 # 2) (9 # 10) _ _)%Q (conj eq_refl eq_refl)));
    by vm_compute.
Defined.

(** * Further properties *)

Import exposition window.

(** ** The exporters' loop on arbitrary bars *)

Section ExportArithmetic.

Implicit Types (bars : list Bar) (r c : Z).

Lemma runningCount_mod r bar : runningCount r bar = (r + Count bar) mod 2 ^ 64.
Proof. unfold runningCount, metric.uint64. by rewrite Z.add_mod_idemp_r. Qed.

Lemma runningCount_range r bar : 0 ≤ runningCount r bar < 2 ^ 64.
Proof. rewrite runningCount_mod. by apply Z.mod_pos_bound. Qed.

Lemma fold_runningCount_mod bars r :
  0 ≤ r < 2 ^ 64 →
  fold_left runningCount bars r = (r + sumCounts bars) mod 2 ^ 64.
Proof.
  revert r. induction bars as [|bar bars IH]; intros r Hr.
  - cbn. rewrite Z.add_0_r. symmetry. by apply Z.mod_small.
  - cbn [fold_left]. rewrite IH by apply runningCount_range.
    rewrite runningCount_mod, sumCounts_cons, Z.add_mod_idemp_l by done.
    f_equal. lia.
Qed.

(** The running count depends on its start only modulo 2^64. *)
Lemma cumulativeBuckets_mod bars r r' :
  r mod 2 ^ 64 = r' mod 2 ^ 64 → cumulativeBuckets r bars = cumulativeBuckets r' bars.
Proof.
  revert r r'. induction bars as [|bar bars IH]; intros r r' Hr; [done|].
  assert (runningCount r bar = runningCount r' bar) as Hrc.
  { rewrite !runningCount_mod, <- (Z.add_mod_idemp_l r), Hr by done.
    by rewrite Z.add_mod_idemp_l. }
  cbn. by rewrite Hrc.
Qed.

Lemma cumulativeBuckets_shift bars c r :
  shiftBucket c <$> cumulativeBuckets r bars = cumulativeBuckets (c + r) bars.
Proof.
  revert r. induction bars as [|bar bars IH]; intros r; [done|].
  assert (metric.uint64 (c + runningCount r bar) = runningCount (c + r) bar) as Hhead.
  { unfold metric.uint64. rewrite !runningCount_mod, Z.add_mod_idemp_r by done.
    f_equal. lia. }
  cbn. unfold shiftBucket at 1. cbn. rewrite Hhead, IH. f_equal.
  apply cumulativeBuckets_mod. rewrite <- Hhead. unfold metric.uint64.
  by rewrite Z.mod_mod.
Qed.

Lemma cumulativeBuckets_app bars1 bars2 r :
  cumulativeBuckets r (bars1 ++ bars2)
  = cumulativeBuckets r bars1
    ++ cumulativeBuckets (fold_left runningCount bars1 r) bars2.
Proof.
  revert r. induction bars1 as [|bar bars1 IH]; intros r; [done|].
  cbn. by rewrite IH.
Qed.

Lemma emitted_app bars1 bars2 : emitted (bars1 ++ bars2) = emitted bars1 ++ emitted bars2.
Proof. apply filter_app. Qed.

Lemma emitted_nil_iff bars : emitted bars = [] ↔ Forall (λ bar, Count bar = 0) bars.
Proof.
  induction bars as [|bar bars IH]; [by split; [constructor|]|].
  rewrite emitted_cons, Forall_cons.
  destruct (Z.eqb_spec (Count bar) 0); [by rewrite IH; intuition|].
  split; [done|]. by intros [? _].
Qed.

(** X1: the sample count of an exported record is the sum of the counts of
    all bars, reduced modulo 2^64; this holds for every sequence of bars,
    whatever the signs and sizes of their counts. *)
Theorem exportBars_SampleCount_wraps bars :
  prometheusgo.SampleCount (prometheusgo.Metric_Histogram (metric.exportBars bars))
  = sumCounts bars mod 2 ^ 64.
Proof.
  rewrite exportBars_unfold. cbn.
  rewrite fold_runningCount_mod by lia. by rewrite emitted_sumCounts.
Qed.

(** X2: an exported record has no bucket exactly when every bar has the
    count zero, an empty sequence of bars included; its sample count and
    its sum are then zero. *)
Theorem exportBars_empty_iff bars :
  (prometheusgo.Buckets (prometheusgo.Metric_Histogram (metric.exportBars bars)) = []
   ↔ Forall (λ bar, Count bar = 0) bars)
  ∧ (Forall (λ bar, Count bar = 0) bars →
     prometheusgo.Metric_Histogram (metric.exportBars bars) = emptyRecord).
Proof.
  rewrite exportBars_unfold. cbn. split.
  - rewrite <- emitted_nil_iff. destruct (emitted bars); [done|]. by split.
  - intros Hzero%emitted_nil_iff. unfold sumOfEmitted. by rewrite Hzero.
Qed.

(** X3: exporting a concatenation is exporting its parts in turn: the
    buckets of the first part are followed by those of the second with the
    sample count of the first added to each cumulative count, and the
    sample counts add up, all in [uint64]. *)
Theorem exportBars_app bars1 bars2 :
  prometheusgo.Buckets (prometheusgo.Metric_Histogram (metric.exportBars (bars1 ++ bars2)))
  = prometheusgo.Buckets (prometheusgo.Metric_Histogram (metric.exportBars bars1))
    ++ (shiftBucket
          (prometheusgo.SampleCount (prometheusgo.Metric_Histogram (metric.exportBars bars1)))
        <$> prometheusgo.Buckets (prometheusgo.Metric_Histogram (metric.exportBars bars2)))
  ∧ prometheusgo.SampleCount (prometheusgo.Metric_Histogram (metric.exportBars (bars1 ++ bars2)))
    = metric.uint64
        (prometheusgo.SampleCount (prometheusgo.Metric_Histogram (metric.exportBars bars1))
         + prometheusgo.SampleCount (prometheusgo.Metric_Histogram (metric.exportBars bars2))).
Proof.
  rewrite !exportBars_unfold. cbn. rewrite emitted_app. split.
  - rewrite cumulativeBuckets_app, cumulativeBuckets_shift. by rewrite Z.add_0_r.
  - rewrite fold_left_app, (fold_runningCount_mod (emitted bars1) 0) by lia.
    rewrite !fold_runningCount_mod by (lia || by apply Z.mod_pos_bound).
    unfold metric.uint64. rewrite !Z.add_0_l, Z.add_mod_idemp_l by done.
    by rewrite <- Z.add_mod by done.
Qed.

End ExportArithmetic.

(** ** The exporters' loop on the bars of a distribution *)

Section ExportCounts.

Implicit Types (bars pre post : list Bar) (r : Z) (b : prometheusgo.Bucket).

Lemma sumCounts_app bars1 bars2 :
  sumCounts (bars1 ++ bars2) = sumCounts bars1 + sumCounts bars2.
Proof.
  induction bars1 as [|bar bars1 IH]; [done|].
  cbn [app]. rewrite !sumCounts_cons, IH. lia.
Qed.

(** Without overflow a bucket belongs to the list exactly when it carries
    the upper bound of a bar with a count and the counts up to that bar. *)
Lemma cumulativeBuckets_elem bars r b :
  0 ≤ r → Forall (λ bar, 0 ≤ Count bar) bars → r + sumCounts bars < 2 ^ 64 →
  b ∈ cumulativeBuckets r (emitted bars)
  ↔ ∃ pre bar post, bars = pre ++ bar :: post ∧ Count bar ≠ 0
      ∧ b = {| prometheusgo.CumulativeCount := r + sumCounts pre + Count bar;
               prometheusgo.UpperBound := inject_Z (To bar) |}.
Proof.
  intros Hr Hnn. revert r Hr.
  induction Hnn as [|bar0 bars Hnn0 Hnn IH]; intros r Hr Htot.
  - cbn. split; [by intros ?%elem_of_nil|]. by intros ([|??] & ? & ? & ? & _).
  - rewrite sumCounts_cons in Htot. pose proof (sumCounts_nonneg bars Hnn) as Hsum.
    rewrite emitted_cons. destruct (Z.eqb_spec (Count bar0) 0) as [H0|H0].
    + rewrite IH by lia. split.
      * intros (pre & bar & post & -> & Hbar & ->).
        exists (bar0 :: pre), bar, post. rewrite sumCounts_cons, H0.
        split; [done|]. split; [done|]. do 2 f_equal.
      * intros ([|bar1 pre] & bar & post & Heq & Hbar & ->);
          cbn [app] in Heq; simplify_eq.
        exists pre, bar, post. rewrite sumCounts_cons, H0. by repeat split.
    + cbn [cumulativeBuckets]. rewrite runningCount_exact by lia.
      rewrite elem_of_cons, IH by lia. split.
      * intros [->|(pre & bar & post & -> & Hbar & ->)].
        -- exists [], bar0, bars. repeat split; [done|]. f_equal. cbn. lia.
        -- exists (bar0 :: pre), bar, post. rewrite sumCounts_cons.
           split; [done|]. split; [done|]. f_equal. lia.
      * intros ([|bar1 pre] & bar & post & Heq & Hbar & ->);
          cbn [app] in Heq; simplify_eq.
        -- left. f_equal. cbn. lia.
        -- right. exists pre, bar, post. rewrite sumCounts_cons.
           split; [done|]. split; [done|]. f_equal. lia.
Qed.

(** In bars of ascending upper bound the bars up to the bound of one of
    them are that bar and the bars before it. *)
Lemma countUpTo_split pre bar post :
  StronglySorted (λ x y : Bar, To x < To y) (pre ++ bar :: post) →
  countUpTo (To bar) (pre ++ bar :: post) = sumCounts pre + Count bar.
Proof.
  intros Hsorted. unfold countUpTo.
  assert (filter (λ a, To a ≤ To bar) pre = pre) as Hpre.
  { assert (Forall (λ a, To a < To bar) pre) as Hall.
    { apply list.Forall_forall. intros a Ha.
      eapply (StronglySorted_app_1_elem_of _ _ _ _ _ Hsorted); [done|by left]. }
    clear Hsorted. induction Hall as [|a pre Ha _ IH]; [done|].
    rewrite filter_cons_True by lia. by rewrite IH. }
  assert (filter (λ a, To a ≤ To bar) post = []) as Hpost.
  { apply StronglySorted_app_1_r, StronglySorted_inv in Hsorted as [_ Hall].
    induction Hall as [|a post Ha _ IH]; [done|].
    by rewrite filter_cons_False by lia. }
  rewrite filter_app, filter_cons_True, Hpre, Hpost by lia.
  rewrite sumCounts_app, sumCounts_cons. cbn. lia.
Qed.

(** X4: in the record exported from the bars of a distribution there is
    one bucket for each bar with a count, and its cumulative count is the
    number of samples in all bars whose upper bound does not exceed the
    bucket's; the record has no other bucket. *)
Theorem exportBars_cumulative_upTo bars b :
  barsOfDistribution bars →
  b ∈ prometheusgo.Buckets (prometheusgo.Metric_Histogram (metric.exportBars bars))
  ↔ ∃ bar, bar ∈ bars ∧ Count bar ≠ 0
      ∧ b = {| prometheusgo.CumulativeCount := countUpTo (To bar) bars;
               prometheusgo.UpperBound := inject_Z (To bar) |}.
Proof.
  intros [Hasc Hnn Htot]. rewrite exportBars_unfold. cbn.
  rewrite cumulativeBuckets_elem by (done || lia). split.
  - intros (pre & bar & post & -> & Hbar & ->). exists bar.
    split; [apply elem_of_app; right; by left|]. split; [done|].
    rewrite countUpTo_split by done. f_equal; lia.
  - intros (bar & [pre [post ->]]%list_elem_of_split & Hbar & ->).
    exists pre, bar, post. rewrite countUpTo_split by done.
    split; [done|]. split; [done|]. f_equal; lia.
Qed.

Lemma length_le_sumCounts bars :
  Forall (λ bar, 0 ≤ Count bar ∧ Count bar ≠ 0) bars →
  Z.of_nat (length bars) ≤ sumCounts bars.
Proof.
  induction 1 as [|bar bars [??] _ IH]; [done|].
  rewrite sumCounts_cons. cbn [length]. lia.
Qed.

(** X5: when no count is negative and the total is below 2^64, every
    bucket of an exported record adds at least one sample to the one before
    it: the cumulative counts are strictly increasing, each lies between 1
    and the sample count, and there are at most as many buckets as
    samples. *)
Theorem exportBars_counts_strict bars :
  Forall (λ bar, 0 ≤ Count bar) bars →
  sumCounts bars < 2 ^ 64 →
  StronglySorted (λ a b, prometheusgo.CumulativeCount a < prometheusgo.CumulativeCount b)
    (prometheusgo.Buckets (prometheusgo.Metric_Histogram (metric.exportBars bars)))
  ∧ Forall (λ b, 0 < prometheusgo.CumulativeCount b
                 ≤ prometheusgo.SampleCount
                     (prometheusgo.Metric_Histogram (metric.exportBars bars)))
      (prometheusgo.Buckets (prometheusgo.Metric_Histogram (metric.exportBars bars)))
  ∧ Z.of_nat (length (prometheusgo.Buckets
                        (prometheusgo.Metric_Histogram (metric.exportBars bars))))
    ≤ prometheusgo.SampleCount (prometheusgo.Metric_Histogram (metric.exportBars bars)).
Proof.
  intros Hnn Htot. rewrite exportBars_unfold. cbn.
  pose proof (emitted_Forall _ bars Hnn) as Hem.
  destruct (cumulativeBuckets_counts 0 (emitted bars)) as (Hbounds & Hsorted & ->);
    [done|done|by rewrite emitted_sumCounts|].
  split; [done|]. split.
  - eapply Forall_impl; [exact Hbounds|]. cbn. intros; lia.
  - rewrite (Forall2_length _ _ _ (cumulativeBuckets_upperBounds 0 (emitted bars))).
    pose proof (length_le_sumCounts _ Hem). lia.
Qed.

Lemma weightedSum_cons bar bars :
  weightedSum (bar :: bars) = To bar * Count bar + weightedSum bars.
Proof. reflexivity. Qed.

Lemma emitted_weightedSum bars : weightedSum (emitted bars) = weightedSum bars.
Proof.
  induction bars as [|bar bars IH]; [done|].
  rewrite emitted_cons, weightedSum_cons.
  destruct (Z.eqb_spec (Count bar) 0) as [H0|_]; rewrite ?weightedSum_cons; lia.
Qed.

Lemma fold_sum_weightedSum bars (acc : Q) :
  (fold_left (λ acc bar, acc + inject_Z (To bar) * inject_Z (Count bar)) bars acc
   == acc + inject_Z (weightedSum bars))%Q.
Proof.
  revert acc. induction bars as [|bar bars IH]; intros acc.
  - cbn. ring.
  - cbn [fold_left]. rewrite IH, weightedSum_cons, inject_Z_plus, inject_Z_mult. ring.
Qed.

Lemma weightedSum_bounds bars lo hi :
  Forall (λ bar, 0 ≤ Count bar) bars →
  Forall (λ bar, Count bar ≠ 0 → lo ≤ To bar ≤ hi) bars →
  lo * sumCounts bars ≤ weightedSum bars ≤ hi * sumCounts bars.
Proof.
  intros Hnn. induction Hnn as [|bar bars Hc _ IH]; intros Hb; [cbn; lia|].
  apply Forall_cons in Hb as [Hbar Hb]. specialize (IH Hb).
  rewrite sumCounts_cons, weightedSum_cons.
  destruct (Z.eq_dec (Count bar) 0) as [->|Hne]; [lia|].
  specialize (Hbar Hne). nia.
Qed.

Lemma weightedSum_app bars1 bars2 :
  weightedSum (bars1 ++ bars2) = weightedSum bars1 + weightedSum bars2.
Proof.
  induction bars1 as [|bar bars1 IH]; [done|].
  cbn [app]. rewrite !weightedSum_cons, IH. lia.
Qed.

Lemma weightedSum_nonneg bars :
  Forall (λ bar, 0 ≤ Count bar) bars → Forall (λ bar, 0 ≤ To bar) bars →
  0 ≤ weightedSum bars.
Proof.
  intros Hnn. induction Hnn as [|bar bars Hc _ IH]; intros Hto; [done|].
  apply Forall_cons in Hto as [Hbar Hto]. specialize (IH Hto).
  rewrite weightedSum_cons. nia.
Qed.

(** X6: a [float64] holds the integers up to 2^53 exactly.  When no bar
    has a negative count or a negative upper bound and the sum of upper
    bound times count is at most 2^53, every product and every partial sum
    of the loop is an integer between 0 and 2^53, so that none of the
    loop's float operations rounds.  The sum of the exported record is then
    the integer sum of upper bound times count, and (the counts adding up to
    less than 2^64) it lies between the sample count times the least and
    times the greatest upper bound of a bar with a count. *)
Theorem exportBars_SampleSum_bounds bars lo hi :
  Forall (λ bar, 0 ≤ Count bar) bars →
  Forall (λ bar, 0 ≤ To bar) bars →
  weightedSum bars ≤ 2 ^ 53 →
  sumCounts bars < 2 ^ 64 →
  Forall (λ bar, Count bar ≠ 0 → lo ≤ To bar ≤ hi) bars →
  (∀ pre bar post, bars = pre ++ bar :: post →
     0 ≤ weightedSum pre
     ∧ 0 ≤ To bar * Count bar
     ∧ weightedSum pre + To bar * Count bar ≤ 2 ^ 53)
  ∧ (prometheusgo.SampleSum (prometheusgo.Metric_Histogram (metric.exportBars bars))
     == inject_Z (weightedSum bars))%Q
  ∧ (inject_Z lo * inject_Z (prometheusgo.SampleCount
                               (prometheusgo.Metric_Histogram (metric.exportBars bars)))
     <= prometheusgo.SampleSum (prometheusgo.Metric_Histogram (metric.exportBars bars)))%Q
  ∧ (prometheusgo.SampleSum (prometheusgo.Metric_Histogram (metric.exportBars bars))
     <= inject_Z hi * inject_Z (prometheusgo.SampleCount
                                  (prometheusgo.Metric_Histogram (metric.exportBars bars))))%Q.
Proof.
  intros Hnn Hto Hexact Htot Hb. split.
  { intros pre bar post ->.
    apply Forall_app in Hnn as [Hnn1 Hnn2]. apply Forall_cons in Hnn2 as [Hc Hnn2].
    apply Forall_app in Hto as [Hto1 Hto2]. apply Forall_cons in Hto2 as [Ht Hto2].
    pose proof (weightedSum_nonneg pre Hnn1 Hto1).
    pose proof (weightedSum_nonneg post Hnn2 Hto2).
    rewrite weightedSum_app, weightedSum_cons in Hexact. nia. }
  assert (prometheusgo.SampleSum (prometheusgo.Metric_Histogram (metric.exportBars bars))
          == inject_Z (weightedSum bars))%Q as Hsum.
  { rewrite exportBars_unfold. cbn. unfold sumOfEmitted.
    rewrite fold_sum_weightedSum, emitted_weightedSum. ring. }
  assert (prometheusgo.SampleCount (prometheusgo.Metric_Histogram (metric.exportBars bars))
          = sumCounts bars) as ->.
  { rewrite exportBars_unfold. cbn.
    destruct (cumulativeBuckets_counts 0 (emitted bars)) as (_ & _ & ->);
      [done|by apply emitted_Forall|by rewrite emitted_sumCounts|].
    rewrite emitted_sumCounts. lia. }
  pose proof (weightedSum_bounds bars lo hi Hnn Hb) as [Hlo Hhi].
  split; [done|]. rewrite Hsum, <- !inject_Z_mult, <- !Zle_Qle. done.
Qed.

End ExportCounts.

Lemma examples_bars_ok : barsOfDistribution examples.bars.
Proof. split; [repeat (constructor; try done)..|done]. Qed.

Lemma exportBars_cumulative_upTo_witness :
  barsOfDistribution examples.bars
  ∧ {| prometheusgo.CumulativeCount := 5; prometheusgo.UpperBound := 7 |}
    ∈ prometheusgo.Buckets (prometheusgo.Metric_Histogram (metric.exportBars examples.bars)).
Proof.
  refine (conj examples_bars_ok
    (proj2 (exportBars_cumulative_upTo examples.bars _ examples_bars_ok) _)).
  exists {| From := 4; To := 7; Count := 3 |}.
  split; [by repeat constructor|]. split; [done|reflexivity].
Defined.

Lemma exportBars_counts_strict_witness :
  Forall (λ bar, 0 ≤ Count bar) examples.bars
  ∧ sumCounts examples.bars < 2 ^ 64
  ∧ Z.of_nat (length (prometheusgo.Buckets
                        (prometheusgo.Metric_Histogram (metric.exportBars examples.bars))))
    ≤ prometheusgo.SampleCount (prometheusgo.Metric_Histogram (metric.exportBars examples.bars)).
Proof.
  destruct examples_bars_ok as [_ Hnn Htot].
  exact (conj Hnn (conj Htot
    (proj2 (proj2 (exportBars_counts_strict examples.bars Hnn Htot))))).
Defined.

Lemma exportBars_SampleSum_bounds_witness :
  Forall (λ bar, 0 ≤ Count bar) examples.bars
  ∧ Forall (λ bar, 0 ≤ To bar) examples.bars
  ∧ weightedSum examples.bars ≤ 2 ^ 53
  ∧ sumCounts examples.bars < 2 ^ 64
  ∧ Forall (λ bar, Count bar ≠ 0 → 1 ≤ To bar ≤ 15) examples.bars
  ∧ (inject_Z 1 * inject_Z (prometheusgo.SampleCount
                              (prometheusgo.Metric_Histogram (metric.exportBars examples.bars)))
     <= prometheusgo.SampleSum (prometheusgo.Metric_Histogram (metric.exportBars examples.bars)))%Q.
Proof.
  destruct examples_bars_ok as [_ Hnn Htot].
  assert (Forall (λ bar, 0 ≤ To bar) examples.bars) as Hto
    by (repeat constructor; cbn; lia).
  assert (weightedSum examples.bars ≤ 2 ^ 53) as Hexact by (vm_compute; discriminate).
  assert (Forall (λ bar, Count bar ≠ 0 → 1 ≤ To bar ≤ 15) examples.bars) as Hb
    by (repeat constructor; cbn; lia).
  exact (conj Hnn (conj Hto (conj Hexact (conj Htot (conj Hb
    (proj1 (proj2 (proj2
       (exportBars_SampleSum_bounds examples.bars 1 15 Hnn Hto Hexact Htot Hb))))))))).
Defined.

(** ** What the methods leave alone *)

Section Frame.
Context {P : Primitive}.

Implicit Types (hh : metric.HdrHistogram) (cs : list calls.Call).

Lemma Tick_frame now hh :
  metric.cumulative (metric.Tick now hh) = metric.cumulative hh
  ∧ metric.maxVal (metric.Tick now hh) = metric.maxVal hh
  ∧ metric.HdrHistogram_Metadata (metric.Tick now hh) = metric.HdrHistogram_Metadata hh
  ∧ tick.tickInterval (metric.Ticker (metric.Tick now hh))
    = tick.tickInterval (metric.Ticker hh).
Proof. done. Qed.

Lemma maybeTick_frame now hh :
  metric.cumulative (metric.maybeTick now hh) = metric.cumulative hh
  ∧ metric.maxVal (metric.maybeTick now hh) = metric.maxVal hh
  ∧ metric.HdrHistogram_Metadata (metric.maybeTick now hh) = metric.HdrHistogram_Metadata hh
  ∧ tick.tickInterval (metric.Ticker (metric.maybeTick now hh))
    = tick.tickInterval (metric.Ticker hh).
Proof.
  unfold metric.maybeTick, tick.MaybeTick.
  by destruct (tick.isDue now (metric.Ticker hh)).
Qed.

Lemma exec_cumulative hh (c : calls.Call) :
  calls.isRecordValue c = false →
  metric.cumulative (calls.exec hh c) = metric.cumulative hh.
Proof. destruct c; try done; intros _; apply maybeTick_frame. Qed.

Lemma exec_configuration hh (c : calls.Call) :
  metric.maxVal (calls.exec hh c) = metric.maxVal hh
  ∧ metric.HdrHistogram_Metadata (calls.exec hh c) = metric.HdrHistogram_Metadata hh
  ∧ tick.tickInterval (metric.Ticker (calls.exec hh c))
    = tick.tickInterval (metric.Ticker hh).
Proof. destruct c; try done; apply maybeTick_frame. Qed.

(** X7: the cumulative distribution is changed by [RecordValue] alone.
    After any sequence of the other calls, rotations by [Tick], [Inspect]
    and the exporters included, [Total], [Min] and [Mean] return what they
    returned before. *)
Theorem cumulative_changed_by_RecordValue_only hh cs :
  Forall (λ c, calls.isRecordValue c = false) cs →
  metric.Total (calls.run hh cs) = metric.Total hh
  ∧ metric.Min (calls.run hh cs) = metric.Min hh
  ∧ metric.Mean (calls.run hh cs) = metric.Mean hh.
Proof.
  intros Hcs.
  assert (metric.cumulative (calls.run hh cs) = metric.cumulative hh) as Hc.
  { revert hh. induction Hcs as [|c cs Hc _ IH]; intros hh; [done|].
    cbn [calls.run fold_left]. fold (calls.run (calls.exec hh c) cs).
    by rewrite IH, exec_cumulative. }
  unfold metric.Total, metric.Min, metric.Mean. by rewrite Hc.
Qed.

(** X16: no call changes the configuration.  After any sequence of calls
    on a constructed instance [maxVal] is the one given to
    [NewHdrHistogram], the rotation interval is half the window duration
    given, and [GetMetadata] returns the metadata given with the metric type
    set to [HISTOGRAM], the type [GetType] reports. *)
Theorem configuration_fixed_at_construction metadata now duration maxVal sigFigs hh cs :
  metric.NewHdrHistogram metadata now duration maxVal sigFigs = Some hh →
  metric.maxVal (calls.run hh cs) = maxVal
  ∧ tick.tickInterval (metric.Ticker (calls.run hh cs))
    = Z.quot duration metric.WindowedHistogramWrapNum
  ∧ metric.GetMetadata (calls.run hh cs)
    = {| metric.Name := metric.Name metadata; metric.Help := metric.Help metadata;
         metric.MetricType := metric.GetType |}.
Proof.
  intros Hnew.
  assert (metric.maxVal hh = maxVal
          ∧ tick.tickInterval (metric.Ticker hh)
            = Z.quot duration metric.WindowedHistogramWrapNum
          ∧ metric.HdrHistogram_Metadata hh = metadata) as (<- & <- & <-).
  { revert Hnew. unfold metric.NewHdrHistogram, NewWindowed.
    destruct (New 0 maxVal sigFigs); [|done]. by intros [= <-]. }
  clear Hnew.
  assert (metric.maxVal (calls.run hh cs) = metric.maxVal hh
          ∧ metric.HdrHistogram_Metadata (calls.run hh cs) = metric.HdrHistogram_Metadata hh
          ∧ tick.tickInterval (metric.Ticker (calls.run hh cs))
            = tick.tickInterval (metric.Ticker hh)) as (Hm & Hd & Ht).
  { revert hh. induction cs as [|c cs IH]; intros hh; [done|].
    cbn [calls.run fold_left]. fold (calls.run (calls.exec hh c) cs).
    destruct (IH (calls.exec hh c)) as (-> & -> & ->). apply exec_configuration. }
  unfold metric.GetMetadata. by rewrite Hm, Hd, Ht.
Qed.

End Frame.

Lemma cumulative_changed_by_RecordValue_only_witness :
  Forall (λ c, calls.isRecordValue c = false)
    [calls.Tick 50; calls.ToPrometheusMetricWindowed 100; calls.Inspect 150]
  ∧ metric.Total
      (calls.run exact.scenario
         [calls.Tick 50; calls.ToPrometheusMetricWindowed 100; calls.Inspect 150])
    = metric.Total exact.scenario.
Proof.
  assert (Forall (λ c, calls.isRecordValue c = false)
    [calls.Tick 50; calls.ToPrometheusMetricWindowed 100; calls.Inspect 150]) as Hcs
    by (repeat constructor).
  exact (conj Hcs (proj1 (cumulative_changed_by_RecordValue_only exact.scenario _ Hcs))).
Defined.

Lemma configuration_fixed_at_construction_witness :
  metric.NewHdrHistogram exact.metadata 0 100 1000 1 = Some (exact.initial 0 100 1000)
  ∧ metric.maxVal exact.scenario = 1000
  ∧ tick.tickInterval (metric.Ticker exact.scenario) = 50.
Proof.
  destruct (configuration_fixed_at_construction exact.metadata 0 100 1000 1
    (exact.initial 0 100 1000)
    [calls.RecordValue 10; calls.RecordValue 500; calls.RecordValue 2000]
    (exact_NewHdrHistogram 0 100 1000 ltac:(lia))) as (Hm & Ht & _).
  exact (conj (exact_NewHdrHistogram 0 100 1000 ltac:(lia)) (conj Hm Ht)).
Defined.

(** ** Values in range *)

Section InRange.
Context {P : Primitive} {L : Lawful P} {B : Bucketed P}.

Implicit Types (hh : metric.HdrHistogram).

(** A value the distribution takes is recorded as it is. *)
Lemma RecordValue_stored_unclamped lim hh v :
  Ranged lim hh →
  0 ≤ v < lim →
  RecordValue (metric.cumulative hh) v = Some (metric.cumulative (metric.RecordValue hh v))
  ∧ Current (metric.sliding (metric.RecordValue hh v))
    = Current (metric.sliding hh) ≫= (λ s, RecordValue s v)
  ∧ (∀ i, i ≠ currentSlot (metric.sliding hh) →
       h (metric.sliding (metric.RecordValue hh v)) !! i = h (metric.sliding hh) !! i)
  ∧ idx (metric.sliding (metric.RecordValue hh v)) = idx (metric.sliding hh)
  ∧ metric.Ticker (metric.RecordValue hh v) = metric.Ticker hh.
Proof.
  intros [Hc Hs] Hv.
  split; [by eapply recordOrMax_inRange|]. split; [|split; [|done]].
  - unfold Current, currentSlot. cbn. rewrite length_alter, list_lookup_alter_eq.
    destruct (h (metric.sliding hh) !! _) as [s|] eqn:Hslot; [|done].
    cbn. symmetry. eapply recordOrMax_inRange; [|done].
    eapply list.Forall_forall in Hs; [done|]. by eapply list_elem_of_lookup_2.
  - intros i Hi. cbn. by apply list_lookup_alter_ne.
Qed.

(** X9: the values that are recorded as they are, not as the maximum, are
    those of the library's range for [maxVal], from 0 to below its
    [smallestUntrackableValue].  The range covers [maxVal], so it holds
    every value of [0 .. maxVal - 1]; it may reach beyond [maxVal].  On an
    instance from [NewHdrHistogram], after any sequence of calls, for a
    value of the range the cumulative distribution and the current slot
    are the ones their own [RecordValue] returns for the value.  No other
    slot, nor the position of the ring, nor the ticker is changed by the
    call. *)
Theorem RecordValue_in_range_unclamped metadata now duration maxVal sigFigs hh lim cs v :
  metric.NewHdrHistogram metadata now duration maxVal sigFigs = Some hh →
  smallestUntrackableValue maxVal sigFigs = Some lim →
  0 ≤ v < lim →
  maxVal ≤ lim
  ∧ RecordValue (metric.cumulative (calls.run hh cs)) v
    = Some (metric.cumulative (metric.RecordValue (calls.run hh cs) v))
  ∧ Current (metric.sliding (metric.RecordValue (calls.run hh cs) v))
    = Current (metric.sliding (calls.run hh cs)) ≫= (λ s, RecordValue s v)
  ∧ (∀ i, i ≠ currentSlot (metric.sliding (calls.run hh cs)) →
       h (metric.sliding (metric.RecordValue (calls.run hh cs) v)) !! i
       = h (metric.sliding (calls.run hh cs)) !! i)
  ∧ idx (metric.sliding (metric.RecordValue (calls.run hh cs) v))
    = idx (metric.sliding (calls.run hh cs))
  ∧ metric.Ticker (metric.RecordValue (calls.run hh cs) v)
    = metric.Ticker (calls.run hh cs).
Proof.
  intros Hnew Hlim Hv.
  pose proof (NewHdrHistogram_Invariant _ _ _ _ _ _ Hnew) as Hinv.
  destruct (NewHdrHistogram_Ranged _ _ _ _ _ _ Hnew) as (lim' & Hlim' & Hle & Hr).
  assert (lim' = lim) as -> by congruence.
  split; [done|]. apply (RecordValue_stored_unclamped lim); [|done].
  by apply run_Ranged.
Qed.

(** X13: a freshly constructed instance holds no sample, neither in the
    cumulative distribution nor in the window. *)
Theorem NewHdrHistogram_holds_no_sample metadata now duration maxVal sigFigs hh :
  metric.NewHdrHistogram metadata now duration maxVal sigFigs = Some hh →
  (metric.Total hh).1 = 0 ∧ (metric.TotalWindowed hh).1 = 0.
Proof.
  intros Hnew. pose proof (NewHdrHistogram_Invariant _ _ _ _ _ _ Hnew) as [_ Hs Hm _].
  revert Hnew Hs Hm. unfold metric.NewHdrHistogram, NewWindowed.
  destruct (New 0 maxVal sigFigs) as [fresh|] eqn:Hfresh; [|done].
  intros [= <-] Hs Hm. pose proof (New_TotalCount _ _ _ _ Hfresh) as H0.
  split; [done|]. cbn [metric.TotalWindowed fst].
  eapply Merge_TotalCount_empty; [exact Hs|exact Hm|]. cbn. by repeat constructor.
Qed.

Lemma smallestUntrackableValue_latency :
  smallestUntrackableValue metric.HdrHistogramMaxLatency 1 = Some (2 ^ 34).
Proof. reflexivity. Qed.

(** X15: an instance from [NewHdrLatency] takes the values from 0 to below
    2^34 nanoseconds, the library's range for ten seconds at one
    significant figure.  Ten seconds is within it, so after every sequence
    of calls the count of [Total] is the number of [RecordValue] calls.  A
    negative latency and a latency of 2^34 or more are recorded as ten
    seconds; a latency below 2^34, those between ten seconds and 2^34
    included, is recorded as it is. *)
Theorem NewHdrLatency_counts_and_range metadata now histogramWindow hh cs :
  metric.NewHdrLatency metadata now histogramWindow = Some hh →
  (metric.Total (calls.run hh cs)).1 = calls.recorded cs
  ∧ (∀ v, v < 0 ∨ 2 ^ 34 ≤ v →
      metric.RecordValue (calls.run hh cs) v
      = metric.RecordValue (calls.run hh cs) (10 * 1000000000))
  ∧ (∀ v, 0 ≤ v < 2 ^ 34 →
      RecordValue (metric.cumulative (calls.run hh cs)) v
      = Some (metric.cumulative (metric.RecordValue (calls.run hh cs) v))
      ∧ Current (metric.sliding (metric.RecordValue (calls.run hh cs) v))
        = Current (metric.sliding (calls.run hh cs)) ≫= (λ s, RecordValue s v)).
Proof.
  unfold metric.NewHdrLatency. intros Hnew.
  pose proof (NewHdrHistogram_Invariant _ _ _ _ _ _ Hnew) as Hinv.
  destruct (NewHdrHistogram_Ranged _ _ _ _ _ _ Hnew) as (lim & Hlim & _ & Hr).
  rewrite smallestUntrackableValue_latency in Hlim. injection Hlim as <-.
  destruct (Total_stored _ _ _ _ _ _ Hnew) as (lim & Hlim & _ & Hcount).
  rewrite smallestUntrackableValue_latency in Hlim. injection Hlim as <-.
  assert (metric.maxVal hh = metric.HdrHistogramMaxLatency) as Hmv.
  { revert Hnew. unfold metric.NewHdrHistogram, NewWindowed.
    destruct (New 0 metric.HdrHistogramMaxLatency 1) as [fresh|]; [|done].
    by intros [= <-]. }
  pose proof (run_Ranged (2 ^ 34) hh cs Hinv Hr) as Hr'.
  split; [|split].
  - rewrite Hcount. apply stored_recorded. unfold metric.HdrHistogramMaxLatency. lia.
  - intros v Hv. pose proof Hr' as [Hc Hs].
    replace (10 * 1000000000) with (metric.maxVal (calls.run hh cs))
      by (by rewrite run_maxVal, Hmv).
    unfold metric.RecordValue. f_equal.
    + apply (recordOrMax_outOfRange (2 ^ 34)); [done|lia].
    + unfold updateCurrent. f_equal. apply list_alter_ext; [|done].
      intros x Hx. apply (recordOrMax_outOfRange (2 ^ 34)); [|lia].
      eapply list.Forall_forall in Hs; [done|]. by eapply list_elem_of_lookup_2.
  - intros v Hv.
    destruct (RecordValue_stored_unclamped (2 ^ 34) (calls.run hh cs) v Hr' Hv)
      as (Hcum & Hcur & _). done.
Qed.

(** X19: what [Total] counts.  On an instance from [NewHdrHistogram], with
    [lim] the end of the library's range for [maxVal], the count of [Total]
    after any sequence of calls is the number of [RecordValue] calls that
    left a sample: those whose value is within [0 .. lim - 1] and, [maxVal]
    being within it, all the others too.  The count is never above the
    number of [RecordValue] calls, equals it where [0 <= maxVal < lim], and
    never decreases as the sequence is extended. *)
Theorem Total_counts_stored_calls metadata now duration maxVal sigFigs hh lim cs :
  metric.NewHdrHistogram metadata now duration maxVal sigFigs = Some hh →
  smallestUntrackableValue maxVal sigFigs = Some lim →
  (metric.Total (calls.run hh cs)).1 = calls.stored lim maxVal cs
  ∧ (metric.Total (calls.run hh cs)).1 ≤ calls.recorded cs
  ∧ (0 ≤ maxVal < lim → (metric.Total (calls.run hh cs)).1 = calls.recorded cs)
  ∧ ∀ cs', (metric.Total (calls.run hh cs)).1 ≤ (metric.Total (calls.run hh (cs ++ cs'))).1.
Proof.
  intros Hnew Hlim.
  destruct (Total_stored _ _ _ _ _ _ Hnew) as (lim' & Hlim' & _ & Hcount).
  assert (lim' = lim) as -> by congruence.
  split; [apply Hcount|]. split; [|split].
  - rewrite Hcount. apply stored_le_recorded.
  - intros Hmax. rewrite Hcount. by apply stored_recorded.
  - intros cs'. rewrite !Hcount. unfold calls.stored.
    rewrite filter_app, length_app. lia.
Qed.

End InRange.

Lemma Total_counts_stored_calls_witness :
  metric.NewHdrHistogram exact.metadata 0 100 (-1) 1 = Some (exact.initial 0 100 (-1))
  ∧ smallestUntrackableValue (-1) 1 = Some 32
  ∧ (metric.Total (calls.run (exact.initial 0 100 (-1))
       [calls.RecordValue 5; calls.RecordValue 40; calls.RecordValue (-3)])).1 = 1.
Proof.
  exact (conj (exact_NewHdrHistogram 0 100 (-1) ltac:(lia)) (conj eq_refl
    (proj1 (Total_counts_stored_calls exact.metadata 0 100 (-1) 1
       (exact.initial 0 100 (-1)) 32
       [calls.RecordValue 5; calls.RecordValue 40; calls.RecordValue (-3)]
       (exact_NewHdrHistogram 0 100 (-1) ltac:(lia)) eq_refl)))).
Defined.

Lemma RecordValue_in_range_unclamped_witness :
  metric.NewHdrHistogram exact.metadata 0 100 10 1 = Some (exact.initial 0 100 10)
  ∧ smallestUntrackableValue 10 1 = Some 32
  ∧ 0 ≤ 20 < 32
  ∧ RecordValue (metric.cumulative (calls.run (exact.initial 0 100 10) [calls.RecordValue 3])) 20
    = Some (metric.cumulative
              (metric.RecordValue (calls.run (exact.initial 0 100 10) [calls.RecordValue 3]) 20)).
Proof.
  assert (0 ≤ 20 < 32) as Hv by lia.
  exact (conj (exact_NewHdrHistogram 0 100 10 ltac:(lia)) (conj eq_refl (conj Hv
    (proj1 (proj2 (RecordValue_in_range_unclamped exact.metadata 0 100 10 1
       (exact.initial 0 100 10) 32 [calls.RecordValue 3] 20
       (exact_NewHdrHistogram 0 100 10 ltac:(lia)) eq_refl Hv)))))).
Defined.

Lemma NewHdrHistogram_holds_no_sample_witness :
  metric.NewHdrHistogram exact.metadata 0 100 1000 1 = Some (exact.initial 0 100 1000)
  ∧ (metric.Total (exact.initial 0 100 1000)).1 = 0
  ∧ (metric.TotalWindowed (exact.initial 0 100 1000)).1 = 0.
Proof.
  exact (conj (exact_NewHdrHistogram 0 100 1000 ltac:(lia))
    (NewHdrHistogram_holds_no_sample exact.metadata 0 100 1000 1 _
       (exact_NewHdrHistogram 0 100 1000 ltac:(lia)))).
Defined.

Lemma exact_NewHdrLatency now histogramWindow :
  metric.NewHdrLatency exact.metadata now histogramWindow
  = Some (exact.initial now histogramWindow (10 * 1000000000)).
Proof. apply exact_NewHdrHistogram. unfold metric.HdrHistogramMaxLatency. lia. Qed.

Lemma NewHdrLatency_counts_and_range_witness :
  metric.NewHdrLatency exact.metadata 0 (60 * 1000000000)
  = Some (exact.initial 0 (60 * 1000000000) (10 * 1000000000))
  ∧ (metric.Total
       (calls.run (exact.initial 0 (60 * 1000000000) (10 * 1000000000))
          [calls.RecordValue 250000; calls.RecordValue (15 * 1000000000)])).1
    = 2.
Proof.
  exact (conj (exact_NewHdrLatency 0 (60 * 1000000000))
    (proj1 (NewHdrLatency_counts_and_range exact.metadata 0 (60 * 1000000000) _
       [calls.RecordValue 250000; calls.RecordValue (15 * 1000000000)]
       (exact_NewHdrLatency 0 (60 * 1000000000))))).
Defined.

(** ** The window as a sum over the slots *)

Section SumBelow.

Implicit Types (n i j : nat) (g : nat → Z).

Lemma sumBelow_ext n g g' :
  (∀ i, (i < n)%nat → g i = g' i) → sumBelow n g = sumBelow n g'.
Proof.
  induction n as [|n IH]; intros Hg; [done|].
  cbn. rewrite IH, Hg by (intros; try apply Hg; lia). done.
Qed.

Lemma sumBelow_le n g g' :
  (∀ i, (i < n)%nat → g i ≤ g' i) → sumBelow n g ≤ sumBelow n g'.
Proof.
  induction n as [|n IH]; intros Hg; [done|].
  cbn. specialize (Hg n ltac:(lia)) as Hn.
  assert (sumBelow n g ≤ sumBelow n g') by (apply IH; intros; apply Hg; lia). lia.
Qed.

Lemma sumBelow_nonneg n g : (∀ i, (i < n)%nat → 0 ≤ g i) → 0 ≤ sumBelow n g.
Proof.
  induction n as [|n IH]; intros Hg; [done|].
  cbn. specialize (Hg n ltac:(lia)) as Hn.
  assert (0 ≤ sumBelow n g) by (apply IH; intros; apply Hg; lia). lia.
Qed.

(** Two summands that differ at one index only. *)
Lemma sumBelow_update n g g' j :
  (j < n)%nat → (∀ i, (i < n)%nat → i ≠ j → g' i = g i) →
  sumBelow n g' = sumBelow n g + (g' j - g j).
Proof.
  induction n as [|n IH]; intros Hj Hg; [lia|].
  cbn. destruct (decide (j = n)) as [->|Hne].
  - rewrite (sumBelow_ext n g' g) by (intros; apply Hg; lia). lia.
  - rewrite IH, (Hg n) by (intros; try apply Hg; lia). lia.
Qed.

End SumBelow.

Section WindowSum.
Context {P : Primitive} {L : Lawful P} {B : Bucketed P}.

Implicit Types (hh : metric.HdrHistogram) (w : WindowedHistogram) (x : Histogram).

Lemma foldr_TotalCount_acc (slots : list Histogram) (z : Z) :
  foldr (λ y acc, TotalCount y + acc) z slots
  = foldr (λ y acc, TotalCount y + acc) 0 slots + z.
Proof. induction slots as [|y slots IH]; cbn; [lia|]. rewrite IH. lia. Qed.

Lemma foldr_TotalCount_sumBelow (slots : list Histogram) :
  foldr (λ y acc, TotalCount y + acc) 0 slots
  = sumBelow (length slots) (λ i, from_option TotalCount 0 (slots !! i)).
Proof.
  induction slots as [|x slots IH] using rev_ind; [done|].
  rewrite foldr_app, length_app, Nat.add_1_r. cbn [foldr sumBelow].
  rewrite lookup_app_r, Nat.sub_diag by done. cbn.
  rewrite (sumBelow_ext _ _ (λ i, from_option TotalCount 0 (slots !! i)))
    by (intros i Hi; by rewrite lookup_app_l).
  rewrite <- IH, foldr_TotalCount_acc. lia.
Qed.

(** The count of the merged ring is the sum of the counts of its slots. *)
Lemma TotalWindowed_sumBelow hh :
  Invariant hh →
  (metric.TotalWindowed hh).1
  = sumBelow (length (h (metric.sliding hh))) (slotCount (metric.sliding hh)).
Proof.
  intros [_ Hs Hm _]. cbn [metric.TotalWindowed fst]. unfold WindowedHistogram_Merge.
  rewrite fold_Merge_TotalCount, Reset_TotalCount, foldr_TotalCount_sumBelow; [done|].
  eapply Forall_impl; [exact Hs|]. cbn. intros y ->. by rewrite Reset_Highest.
Qed.

Lemma slotCount_updateCurrent f w i :
  slotCount (updateCurrent f w) i
  = if decide (i = currentSlot w) then from_option (λ x, TotalCount (f x)) 0 (h w !! i)
    else slotCount w i.
Proof.
  unfold slotCount, updateCurrent. cbn [h]. case_decide as Hi.
  - subst i. rewrite list_lookup_alter_eq. by destruct (h w !! _).
  - by rewrite list_lookup_alter_ne.
Qed.

Lemma slotCount_Rotate w i :
  slotCount (WindowedHistogram_Rotate w) i
  = if decide (i = (S (idx w) mod length (h w))%nat ∧ (i < length (h w))%nat) then 0
    else slotCount w i.
Proof.
  unfold WindowedHistogram_Rotate. rewrite slotCount_updateCurrent.
  unfold currentSlot, slotCount. cbn [h idx].
  destruct (h w !! i) as [x|] eqn:Hx.
  - pose proof (lookup_lt_Some _ _ _ Hx) as Hlt.
    destruct (decide (i = (S (idx w) mod length (h w))%nat)) as [Heq|Hne].
    + rewrite decide_True by done. cbn. apply Reset_TotalCount.
    + rewrite decide_False by (by intros [? _]). done.
  - repeat case_decide; done.
Qed.

(** What one [RecordValue] does to a count. *)
Lemma recordOrMax_TotalCount_bounds maxVal v x :
  TotalCount x ≤ TotalCount (metric.recordOrMax maxVal v x) ≤ TotalCount x + 1.
Proof.
  unfold metric.recordOrMax.
  destruct (RecordValue x v) eqn:Hv; [rewrite (RecordValue_TotalCount _ _ _ Hv); lia|].
  destruct (RecordValue x maxVal) eqn:Hmax;
    [rewrite (RecordValue_TotalCount _ _ _ Hmax); lia|lia].
Qed.

Lemma currentSlot_lt w : h w ≠ [] → (currentSlot w < length (h w))%nat.
Proof.
  intros Hne. apply Nat.mod_upper_bound. by destruct (h w).
Qed.

Lemma RecordValue_counts lim hh v :
  Invariant hh →
  Ranged lim hh →
  h (metric.sliding hh) ≠ [] →
  (metric.Total (metric.RecordValue hh v)).1
  = (metric.Total hh).1 + (if calls.stores lim (metric.maxVal hh) v then 1 else 0)
  ∧ (metric.TotalWindowed (metric.RecordValue hh v)).1
    = (metric.TotalWindowed hh).1 + (if calls.stores lim (metric.maxVal hh) v then 1 else 0).
Proof.
  intros Hinv [Hc Hs] Hne. split.
  - cbn. by apply recordOrMax_stores.
  - rewrite !TotalWindowed_sumBelow by (done || by apply RecordValue_Invariant).
    cbn [metric.RecordValue metric.sliding]. set (w := metric.sliding hh) in *.
    replace (length (h (updateCurrent (metric.recordOrMax (metric.maxVal hh) v) w)))
      with (length (h w)) by (cbn; by rewrite length_alter).
    pose proof (currentSlot_lt w Hne) as Hlt.
    rewrite (sumBelow_update _ (slotCount w) _ (currentSlot w) Hlt).
    + rewrite slotCount_updateCurrent, decide_True by done. unfold slotCount.
      destruct (lookup_lt_is_Some_2 _ _ Hlt) as [x Hx]. rewrite Hx. cbn.
      rewrite (recordOrMax_stores lim); [lia|].
      eapply list.Forall_forall in Hs; [done|]. by eapply list_elem_of_lookup_2.
    + intros i _ Hi. by rewrite slotCount_updateCurrent, decide_False.
Qed.

(** X8: a call of [RecordValue] changes the counts of [Total] and of
    [TotalWindowed] by the same amount.  Both grow by one when the value is
    within the range the distribution takes or, the value being outside,
    [maxVal] is within it; when neither is, the two errors are discarded
    and both counts stay as they are. *)
Theorem RecordValue_adds_same_to_both lim hh v :
  Invariant hh →
  Ranged lim hh →
  h (metric.sliding hh) ≠ [] →
  (metric.Total (metric.RecordValue hh v)).1
  = (metric.Total hh).1 + (if calls.stores lim (metric.maxVal hh) v then 1 else 0)
  ∧ (metric.TotalWindowed (metric.RecordValue hh v)).1
    = (metric.TotalWindowed hh).1 + (if calls.stores lim (metric.maxVal hh) v then 1 else 0).
Proof. apply RecordValue_counts. Qed.

(** What every reachable instance keeps besides the invariant: no slot has
    a negative count, and the slots together hold at most the samples of
    the cumulative distribution. *)
Lemma exec_window_le_cumulative lim hh (c : calls.Call) :
  Invariant hh → Ranged lim hh →
  slotsNonneg (metric.sliding hh) →
  sumBelow (length (h (metric.sliding hh))) (slotCount (metric.sliding hh))
    ≤ TotalCount (metric.cumulative hh) →
  slotsNonneg (metric.sliding (calls.exec hh c))
  ∧ sumBelow (length (h (metric.sliding (calls.exec hh c))))
      (slotCount (metric.sliding (calls.exec hh c)))
    ≤ TotalCount (metric.cumulative (calls.exec hh c)).
Proof.
  intros Hinv Hr Hnn Hle. pose proof Hr as [Hc Hs].
  destruct (calls.isRecordValue c) eqn:Hrec.
  - destruct c; try done. cbn [calls.exec]. split.
    + cbn. apply Forall_alter; [done|]. intros x _ Hx.
      pose proof (recordOrMax_TotalCount_bounds (metric.maxVal hh) v x). lia.
    + destruct (decide (h (metric.sliding hh) = [])) as [Hnil|Hne].
      * cbn [metric.RecordValue metric.sliding metric.cumulative updateCurrent h].
        rewrite length_alter. rewrite Hnil in Hle |- *. cbn in Hle |- *.
        pose proof (recordOrMax_TotalCount_bounds (metric.maxVal hh) v (metric.cumulative hh)).
        lia.
      * rewrite <- TotalWindowed_sumBelow by (by apply RecordValue_Invariant).
        destruct (RecordValue_counts lim hh v) as [Hcum ->]; try done.
        rewrite TotalWindowed_sumBelow by done. cbn in Hcum |- *. lia.
  - rewrite exec_cumulative, (exec_sliding hh c Hinv Hrec) by done.
    destruct (calls.rotates hh c); [|done]. split.
    + apply Forall_alter; [done|]. intros x _ _. by rewrite Reset_TotalCount.
    + rewrite Rotate_length.
      etrans; [|exact Hle]. apply sumBelow_le. intros i Hi.
      rewrite slotCount_Rotate. case_decide; [|done]. unfold slotCount.
      destruct (lookup_lt_is_Some_2 _ _ Hi) as [x Hx]. rewrite Hx. cbn.
      eapply list.Forall_forall in Hnn; [done|]. by eapply list_elem_of_lookup_2.
Qed.

End WindowSum.

(** ** The window never holds more than the cumulative distribution *)

Section WindowBound.
Context {P : Primitive} {L : Lawful P} {B : Bucketed P}.

Implicit Types (hh : metric.HdrHistogram) (cs : list calls.Call).

Lemma run_window_le_cumulative lim hh cs :
  Invariant hh → Ranged lim hh →
  slotsNonneg (metric.sliding hh) →
  sumBelow (length (h (metric.sliding hh))) (slotCount (metric.sliding hh))
    ≤ TotalCount (metric.cumulative hh) →
  slotsNonneg (metric.sliding (calls.run hh cs))
  ∧ sumBelow (length (h (metric.sliding (calls.run hh cs))))
      (slotCount (metric.sliding (calls.run hh cs)))
    ≤ TotalCount (metric.cumulative (calls.run hh cs)).
Proof.
  revert hh. induction cs as [|c cs IH]; intros hh Hinv Hr Hnn Hle; [done|].
  cbn [calls.run fold_left]. fold (calls.run (calls.exec hh c) cs).
  destruct (exec_window_le_cumulative lim hh c Hinv Hr Hnn Hle) as [Hnn' Hle'].
  apply IH; [by apply exec_Invariant|by apply exec_Ranged|done..].
Qed.

(** What [NewHdrHistogram] returns, spelled out. *)
Lemma NewHdrHistogram_inv metadata now duration maxVal sigFigs hh :
  metric.NewHdrHistogram metadata now duration maxVal sigFigs = Some hh →
  ∃ fresh, New 0 maxVal sigFigs = Some fresh
    ∧ metric.maxVal hh = maxVal
    ∧ metric.cumulative hh = fresh
    ∧ h (metric.sliding hh) = [fresh; fresh].
Proof.
  unfold metric.NewHdrHistogram, NewWindowed.
  destruct (New 0 maxVal sigFigs) as [fresh|]; [|done].
  intros [= <-]. by exists fresh.
Qed.

(** X10: on an instance constructed with [maxVal >= 0] the window never
    holds more samples than the cumulative distribution: after every
    sequence of calls the count of [TotalWindowed] is at most the count of
    [Total].  The cumulative distribution and the slots are made for one
    range, so a value is taken by both or by neither. *)
Theorem TotalWindowed_le_Total metadata now duration maxVal sigFigs hh cs :
  0 ≤ maxVal →
  metric.NewHdrHistogram metadata now duration maxVal sigFigs = Some hh →
  (metric.TotalWindowed (calls.run hh cs)).1 ≤ (metric.Total (calls.run hh cs)).1.
Proof.
  intros Hmax Hnew.
  pose proof (NewHdrHistogram_Invariant _ _ _ _ _ _ Hnew) as Hinv.
  destruct (NewHdrHistogram_Ranged _ _ _ _ _ _ Hnew) as (lim & _ & _ & Hr).
  destruct (NewHdrHistogram_inv _ _ _ _ _ _ Hnew) as (fresh & Hfresh & Hmv & Hc & Hs).
  pose proof (New_TotalCount _ _ _ _ Hfresh) as H0.
  rewrite TotalWindowed_sumBelow by (by apply run_Invariant).
  apply (run_window_le_cumulative lim); [done|done|..].
  - unfold slotsNonneg. rewrite Hs. repeat constructor; lia.
  - unfold slotCount. rewrite Hs, Hc. cbn. lia.
Qed.

End WindowBound.

Lemma TotalWindowed_le_Total_witness :
  0 ≤ 10
  ∧ metric.NewHdrHistogram exact.metadata 0 100 10 1 = Some (exact.initial 0 100 10)
  ∧ (metric.TotalWindowed examples.straddling).1 ≤ (metric.Total examples.straddling).1.
Proof.
  assert (0 ≤ 10) as Hmax by lia.
  exact (conj Hmax (conj (exact_NewHdrHistogram 0 100 10 ltac:(lia))
    (TotalWindowed_le_Total exact.metadata 0 100 10 1 (exact.initial 0 100 10)
       [calls.RecordValue 2; calls.RecordValue 7; calls.Tick 50; calls.RecordValue 9]
       Hmax (exact_NewHdrHistogram 0 100 10 ltac:(lia))))).
Defined.

Lemma exact_scenario_Ranged : Ranged 1024 exact.scenario.
Proof.
  apply run_Ranged; [apply exact_initial_Invariant|].
  by apply exact_initial_Ranged.
Qed.

Lemma RecordValue_adds_same_to_both_witness :
  Invariant exact.scenario
  ∧ Ranged 1024 exact.scenario
  ∧ h (metric.sliding exact.scenario) ≠ []
  ∧ (metric.Total (metric.RecordValue exact.scenario 2000)).1 = 3 + 1
  ∧ (metric.TotalWindowed (metric.RecordValue exact.scenario 2000)).1 = 3 + 1.
Proof.
  assert (h (metric.sliding exact.scenario) ≠ []) as Hne by done.
  exact (conj exact_scenario_Invariant (conj exact_scenario_Ranged (conj Hne
    (RecordValue_adds_same_to_both 1024 exact.scenario 2000
       exact_scenario_Invariant exact_scenario_Ranged Hne)))).
Defined.

(** ** Exported counts and the counts of the summaries *)

Section ExportedCount.
Context {P : Primitive}.

Implicit Types (hh : metric.HdrHistogram) (bars : list Bar).

Lemma exportBars_SampleCount_exact bars :
  Forall (λ bar, 0 ≤ Count bar) bars → sumCounts bars < 2 ^ 64 →
  prometheusgo.SampleCount (prometheusgo.Metric_Histogram (metric.exportBars bars))
  = sumCounts bars.
Proof.
  intros Hnn Htot. rewrite exportBars_unfold. cbn.
  rewrite fold_runningCount_mod, emitted_sumCounts by lia.
  apply Z.mod_small. pose proof (sumCounts_nonneg bars Hnn). lia.
Qed.

(** X14: when the bars of the cumulative distribution have counts that are
    not negative and add up to its total count, and that count is below
    2^64, the sample count [ToPrometheusMetric] exports is the count
    [Total] returns, before the call and after it. *)
Theorem ToPrometheusMetric_SampleCount_is_Total now hh :
  Forall (λ bar, 0 ≤ Count bar) (Distribution (metric.cumulative hh)) →
  sumCounts (Distribution (metric.cumulative hh)) = TotalCount (metric.cumulative hh) →
  TotalCount (metric.cumulative hh) < 2 ^ 64 →
  prometheusgo.SampleCount (prometheusgo.Metric_Histogram (metric.ToPrometheusMetric now hh).2)
  = (metric.Total hh).1
  ∧ (metric.Total (metric.ToPrometheusMetric now hh).1).1 = (metric.Total hh).1.
Proof.
  intros Hnn Hsum Htot. split.
  - rewrite ToPrometheusMetric_exportBars, exportBars_SampleCount_exact by (done || lia).
    done.
  - cbn. by rewrite (proj1 (maybeTick_cumulative now hh)).
Qed.

(** X17: when the bars of the merged ring have counts that are not
    negative and add up to its total count, and that count is below 2^64,
    the sample count [ToPrometheusMetricWindowed] exports is the count
    [TotalWindowed] returns on the instance as the exporter leaves it. *)
Theorem ToPrometheusMetricWindowed_SampleCount_is_TotalWindowed now hh :
  Forall (λ bar, 0 ≤ Count bar)
    (Distribution
       (WindowedHistogram_Merge (metric.sliding (metric.ToPrometheusMetricWindowed now hh).1))) →
  sumCounts
    (Distribution
       (WindowedHistogram_Merge (metric.sliding (metric.ToPrometheusMetricWindowed now hh).1)))
  = TotalCount
      (WindowedHistogram_Merge (metric.sliding (metric.ToPrometheusMetricWindowed now hh).1)) →
  TotalCount
    (WindowedHistogram_Merge (metric.sliding (metric.ToPrometheusMetricWindowed now hh).1))
  < 2 ^ 64 →
  prometheusgo.SampleCount
    (prometheusgo.Metric_Histogram (metric.ToPrometheusMetricWindowed now hh).2)
  = (metric.TotalWindowed (metric.ToPrometheusMetricWindowed now hh).1).1.
Proof.
  change (metric.ToPrometheusMetricWindowed now hh).1 with (metric.maybeTick now hh).
  intros Hnn Hsum Htot.
  rewrite ToPrometheusMetricWindowed_exportBars.
  rewrite exportBars_SampleCount_exact; [done|done|]. rewrite Hsum. exact Htot.
Qed.

End ExportedCount.

Lemma ToPrometheusMetric_SampleCount_is_Total_witness :
  Forall (λ bar, 0 ≤ Count bar) (Distribution (metric.cumulative exact.exposed))
  ∧ sumCounts (Distribution (metric.cumulative exact.exposed))
    = TotalCount (metric.cumulative exact.exposed)
  ∧ TotalCount (metric.cumulative exact.exposed) < 2 ^ 64
  ∧ prometheusgo.SampleCount
      (prometheusgo.Metric_Histogram (metric.ToPrometheusMetric 60 exact.exposed).2)
    = (metric.Total exact.exposed).1.
Proof.
  destruct exact_exposed_cumulative as [_ Hnn _].
  assert (sumCounts (Distribution (metric.cumulative exact.exposed))
          = TotalCount (metric.cumulative exact.exposed)) as Hsum by reflexivity.
  assert (TotalCount (metric.cumulative exact.exposed) < 2 ^ 64) as Htot by done.
  exact (conj Hnn (conj Hsum (conj Htot
    (proj1 (ToPrometheusMetric_SampleCount_is_Total 60 exact.exposed Hnn Hsum Htot))))).
Defined.

Lemma ToPrometheusMetricWindowed_SampleCount_is_TotalWindowed_witness :
  prometheusgo.SampleCount
    (prometheusgo.Metric_Histogram (metric.ToPrometheusMetricWindowed 60 exact.exposed).2)
  = (metric.TotalWindowed (metric.ToPrometheusMetricWindowed 60 exact.exposed).1).1.
Proof.
  destruct exact_exposed_windowed as [_ Hnn _].
  refine (ToPrometheusMetricWindowed_SampleCount_is_TotalWindowed 60 exact.exposed
    Hnn _ _); [reflexivity|done].
Defined.

(** ** How long a sample stays in the window *)

Lemma succ_mod (x n : nat) :
  n ≠ 0%nat →
  (S x mod n)%nat = if decide (S (x mod n) = n) then 0%nat else S (x mod n).
Proof.
  intros Hn. pose proof (Nat.div_mod_eq x n) as Hx.
  pose proof (Nat.mod_upper_bound x n Hn) as Hr.
  case_decide as Hwrap; symmetry.
  - apply (Nat.mod_unique _ _ (S (x `div` n))); [lia|]. rewrite Nat.mul_succ_r. lia.
  - apply (Nat.mod_unique _ _ (x `div` n)); lia.
Qed.

Lemma mod_zero_iff (a n i : nat) :
  (i < n)%nat → ((a + (n - i)) mod n)%nat = 0%nat ↔ i = (a mod n)%nat.
Proof.
  intros Hi. pose proof (Nat.div_mod_eq a n) as Ha.
  pose proof (Nat.mod_upper_bound a n ltac:(lia)) as Hr. split.
  - intros H0. pose proof (Nat.div_mod_eq (a + (n - i)) n) as Hd. rewrite H0 in Hd.
    destruct ((a + (n - i)) `div` n)%nat as [|q] eqn:Hq; [lia|].
    rewrite Nat.mul_succ_r in Hd. apply (Nat.mod_unique _ _ q); lia.
  - intros ->. symmetry. apply (Nat.mod_unique _ _ (S (a `div` n))); [lia|].
    rewrite Nat.mul_succ_r. lia.
Qed.

Section Ages.
Context {P : Primitive} {L : Lawful P} {B : Bucketed P}.

Implicit Types (hh : metric.HdrHistogram) (w : WindowedHistogram) (cs : list calls.Call).

Lemma age_lt w i : (i < length (h w))%nat → (age w i < length (h w))%nat.
Proof. intros Hi. apply Nat.mod_upper_bound. lia. Qed.

Lemma age_updateCurrent f w i : age (updateCurrent f w) i = age w i.
Proof. unfold age, updateCurrent. cbn [h idx]. by rewrite length_alter. Qed.

Lemma age_current w i :
  (i < length (h w))%nat → age w i = 0%nat ↔ i = currentSlot w.
Proof. apply mod_zero_iff. Qed.

(** A rotation makes every slot one older, but for the oldest, which
    becomes the current one. *)
Lemma age_Rotate w i :
  (i < length (h w))%nat →
  age (WindowedHistogram_Rotate w) i
  = if decide (S (age w i) = length (h w)) then 0%nat else S (age w i).
Proof.
  intros Hi. unfold age. rewrite Rotate_length, Rotate_idx.
  apply (succ_mod (idx w + (length (h w) - i))). lia.
Qed.

Lemma rotated_slot w i :
  (i < length (h w))%nat →
  i = (S (idx w) mod length (h w))%nat ↔ S (age w i) = length (h w).
Proof.
  intros Hi.
  assert (currentSlot (WindowedHistogram_Rotate w) = (S (idx w) mod length (h w))%nat)
    as <- by (unfold currentSlot; by rewrite Rotate_length).
  rewrite <- age_current by (by rewrite Rotate_length).
  rewrite age_Rotate by done. by case_decide.
Qed.

Lemma sumBelow_zero n : sumBelow n (λ _, 0) = 0.
Proof. induction n as [|n IH]; cbn; lia. Qed.

Lemma recentCount_all k w :
  (length (h w) ≤ k)%nat → recentCount k w = sumBelow (length (h w)) (slotCount w).
Proof.
  intros Hk. apply sumBelow_ext. intros i Hi.
  pose proof (age_lt w i Hi). by rewrite decide_True by lia.
Qed.

Lemma recentCount_le_all k w :
  slotsNonneg w → recentCount k w ≤ sumBelow (length (h w)) (slotCount w).
Proof.
  intros Hnn. apply sumBelow_le. intros i Hi. case_decide; [done|].
  unfold slotCount. destruct (lookup_lt_is_Some_2 _ _ Hi) as [x Hx]. rewrite Hx. cbn.
  eapply list.Forall_forall in Hnn; [done|]. by eapply list_elem_of_lookup_2.
Qed.

(** *** At most [W] rotations *)

Lemma holdsAtMost_Rotate k c w :
  holdsAtMost k c w → holdsAtMost (S k) c (WindowedHistogram_Rotate w).
Proof.
  intros [Hnn Hle]. split.
  - intros i Hi. rewrite Rotate_length in Hi. rewrite age_Rotate, slotCount_Rotate by done.
    destruct (decide (S (age w i) = length (h w))) as [Hwrap|Hwrap].
    + pose proof (proj2 (rotated_slot w i Hi) Hwrap) as Hslot.
      by rewrite (decide_True (P := _ ∧ _)) by done.
    + rewrite (decide_False (P := _ ∧ _))
        by (intros [Hslot _]; by apply rotated_slot in Hslot).
      intros Hage. apply Hnn; [done|lia].
  - etrans; [|exact Hle]. unfold recentCount. rewrite Rotate_length.
    apply sumBelow_le. intros i Hi. rewrite age_Rotate, slotCount_Rotate by done.
    destruct (decide (S (age w i) = length (h w))) as [Hwrap|Hwrap].
    + pose proof (proj2 (rotated_slot w i Hi) Hwrap) as Hslot.
      rewrite (decide_True (P := _ ∧ _)) by done. rewrite decide_True by lia.
      case_decide; [by apply Hnn|done].
    + rewrite (decide_False (P := _ ∧ _))
        by (intros [Hslot _]; by apply rotated_slot in Hslot).
      repeat case_decide; (done || lia).
Qed.

Lemma holdsAtMost_record k c w maxVal v :
  holdsAtMost k c w →
  holdsAtMost k (c + 1) (updateCurrent (metric.recordOrMax maxVal v) w).
Proof.
  intros [Hnn Hle].
  assert (∀ i, slotCount w i ≤ slotCount (updateCurrent (metric.recordOrMax maxVal v) w) i
               ≤ slotCount w i + 1) as Hstep.
  { intros i. rewrite slotCount_updateCurrent. case_decide; [|lia].
    unfold slotCount. destruct (h w !! i) as [x|]; cbn; [|lia].
    apply recordOrMax_TotalCount_bounds. }
  split.
  - intros i Hi. cbn [updateCurrent h] in Hi. rewrite length_alter in Hi.
    rewrite age_updateCurrent. intros Hage. specialize (Hnn i Hi Hage).
    specialize (Hstep i). lia.
  - unfold recentCount in *. cbn [updateCurrent h]. rewrite length_alter.
    destruct (decide (h w = [])) as [Hnil|Hne]; [rewrite Hnil; cbn; rewrite Hnil in Hle; cbn in Hle; lia|].
    pose proof (currentSlot_lt w Hne) as Hlt.
    rewrite (sumBelow_update _
      (λ i, if decide (age w i < k)%nat then slotCount w i else 0) _ (currentSlot w) Hlt).
    + rewrite age_updateCurrent. specialize (Hstep (currentSlot w)).
      case_decide; lia.
    + intros i _ Hi. rewrite age_updateCurrent, slotCount_updateCurrent.
      by rewrite (decide_False (P := i = _)).
Qed.

Lemma exec_length hh (c : calls.Call) :
  Invariant hh →
  length (h (metric.sliding (calls.exec hh c))) = length (h (metric.sliding hh)).
Proof. apply exec_ring_size. Qed.

Lemma run_holdsAtMost hh cs k c :
  Invariant hh →
  holdsAtMost k c (metric.sliding hh) →
  holdsAtMost (k + calls.rotations hh cs) (c + calls.recorded cs)
    (metric.sliding (calls.run hh cs))
  ∧ length (h (metric.sliding (calls.run hh cs))) = length (h (metric.sliding hh)).
Proof.
  revert hh k c. induction cs as [|c0 cs IH]; intros hh k c Hinv Hk.
  - cbn [calls.run fold_left calls.rotations]. unfold calls.recorded. cbn.
    by rewrite Nat.add_0_r, Z.add_0_r.
  - cbn [calls.run fold_left calls.rotations]. fold (calls.run (calls.exec hh c0) cs).
    rewrite recorded_cons. pose proof (exec_Invariant hh c0 Hinv) as Hinv'.
    pose proof (exec_length hh c0 Hinv) as Hlen.
    destruct (calls.isRecordValue c0) eqn:Hrec.
    + destruct c0; try done. cbn [calls.rotates].
      destruct (IH (calls.exec hh (calls.RecordValue v)) k (c + 1) Hinv') as [Hm Hl].
      { by apply holdsAtMost_record. }
      split; [|by rewrite Hl].
      by replace (c + (1 + calls.recorded cs)) with (c + 1 + calls.recorded cs) by lia.
    + pose proof (exec_sliding hh c0 Hinv Hrec) as Hstep.
      destruct (calls.rotates hh c0).
      * destruct (IH (calls.exec hh c0) (S k) c Hinv') as [Hm Hl].
        { rewrite Hstep. by apply holdsAtMost_Rotate. }
        split; [|by rewrite Hl].
        replace (k + (1 + calls.rotations (calls.exec hh c0) cs))%nat
          with (S k + calls.rotations (calls.exec hh c0) cs)%nat by lia.
        by replace (c + (0 + calls.recorded cs)) with (c + calls.recorded cs) by lia.
      * destruct (IH (calls.exec hh c0) k c Hinv') as [Hm Hl]; [by rewrite Hstep|].
        split; [|by rewrite Hl].
        by replace (c + (0 + calls.recorded cs)) with (c + calls.recorded cs) by lia.
Qed.

Lemma TotalWindowed_evicted hh cs :
  Invariant hh →
  (length (h (metric.sliding hh)) ≤ calls.rotations hh cs)%nat →
  (metric.TotalWindowed (calls.run hh cs)).1 ≤ calls.recorded cs.
Proof.
  intros Hinv Hrot.
  destruct (run_holdsAtMost hh cs 0 0 Hinv) as [[_ Hle] Hlen].
  { split; [intros; lia|]. unfold recentCount.
    rewrite (sumBelow_ext _ _ (λ _, 0)) by (intros; by rewrite decide_False by lia).
    by rewrite sumBelow_zero. }
  rewrite TotalWindowed_sumBelow by (by apply run_Invariant).
  rewrite <- (recentCount_all (0 + calls.rotations hh cs)) by lia. lia.
Qed.

(** X11: whatever is called in between, [RecordValue] included, once the
    ring has been rotated as many times as it has slots the window holds
    none of the samples recorded before: the count of [TotalWindowed] is at
    most the number of [RecordValue] calls made since. *)
Theorem TotalWindowed_forgets_after_W_rotations hh cs :
  Invariant hh →
  (length (h (metric.sliding hh)) ≤ calls.rotations hh cs)%nat →
  (metric.TotalWindowed (calls.run hh cs)).1 ≤ calls.recorded cs.
Proof. apply TotalWindowed_evicted. Qed.

(** *** Fewer than [W] rotations *)

Lemma holdsAtLeast_Rotate k c w :
  holdsAtLeast k c w → (S k < length (h w))%nat →
  holdsAtLeast (S k) c (WindowedHistogram_Rotate w).
Proof.
  intros (_ & Hnn & Hle) Hk. split; [by rewrite Rotate_length|]. split.
  - apply Forall_alter; [done|]. intros x _ _. by rewrite Reset_TotalCount.
  - etrans; [exact Hle|]. unfold recentCount. rewrite Rotate_length.
    apply Z.eq_le_incl, sumBelow_ext. intros i Hi.
    rewrite age_Rotate, slotCount_Rotate by done.
    destruct (decide (S (age w i) = length (h w))) as [Hwrap|Hwrap].
    + pose proof (proj2 (rotated_slot w i Hi) Hwrap) as Hslot.
      rewrite (decide_True (P := _ ∧ _)) by done.
      rewrite decide_False by lia. by case_decide.
    + rewrite (decide_False (P := _ ∧ _))
        by (intros [Hslot _]; by apply rotated_slot in Hslot).
      repeat case_decide; (done || lia).
Qed.

Lemma holdsAtLeast_record lim k c w maxVal v :
  Forall (tracksBelow lim) (h w) →
  holdsAtLeast k c w →
  holdsAtLeast k (c + (if calls.stores lim maxVal v then 1 else 0))
    (updateCurrent (metric.recordOrMax maxVal v) w).
Proof.
  intros Hs (Hk & Hnn & Hle). split; [cbn; by rewrite length_alter|]. split.
  - apply Forall_alter; [done|]. intros x _ Hx.
    pose proof (recordOrMax_TotalCount_bounds maxVal v x). lia.
  - unfold recentCount in *. cbn [updateCurrent h]. rewrite length_alter.
    assert (h w ≠ []) as Hne by (intros Hnil; rewrite Hnil in Hk; cbn in Hk; lia).
    pose proof (currentSlot_lt w Hne) as Hlt.
    rewrite (sumBelow_update _
      (λ i, if decide (age w i < S k)%nat then slotCount w i else 0) _ (currentSlot w) Hlt).
    + rewrite age_updateCurrent, slotCount_updateCurrent, (decide_True (P := _ = _)) by done.
      rewrite (proj2 (age_current w _ Hlt) eq_refl), !decide_True by lia.
      destruct (lookup_lt_is_Some_2 _ _ Hlt) as [x Hx].
      assert (slotCount w (currentSlot w) = TotalCount x) as ->
        by (unfold slotCount; by rewrite Hx).
      rewrite Hx. cbn [from_option].
      rewrite (recordOrMax_stores lim); [lia|].
      eapply list.Forall_forall in Hs; [done|]. by eapply list_elem_of_lookup_2.
    + intros i _ Hi. rewrite age_updateCurrent, slotCount_updateCurrent.
      by rewrite (decide_False (P := i = _)).
Qed.

Lemma run_holdsAtLeast lim hh cs k c :
  Invariant hh → Ranged lim hh →
  holdsAtLeast k c (metric.sliding hh) →
  (k + calls.rotations hh cs < length (h (metric.sliding hh)))%nat →
  holdsAtLeast (k + calls.rotations hh cs) (c + calls.stored lim (metric.maxVal hh) cs)
    (metric.sliding (calls.run hh cs)).
Proof.
  revert hh k c. induction cs as [|c0 cs IH]; intros hh k c Hinv Hr Hk Hrot.
  - cbn [calls.run fold_left calls.rotations]. unfold calls.stored. cbn.
    by rewrite Nat.add_0_r, Z.add_0_r.
  - cbn [calls.run fold_left calls.rotations] in Hrot |- *.
    fold (calls.run (calls.exec hh c0) cs).
    rewrite stored_cons. pose proof (exec_Invariant hh c0 Hinv) as Hinv'.
    pose proof (exec_Ranged lim hh c0 Hinv Hr) as Hr'.
    pose proof (exec_length hh c0 Hinv) as Hlen.
    rewrite <- (exec_maxVal hh c0).
    destruct (calls.isRecordValue c0) eqn:Hrec.
    + destruct c0; try done. cbn [calls.rotates calls.isStored] in Hrot |- *.
      rewrite Z.add_assoc.
      apply IH; [done|done| |by rewrite Hlen].
      apply holdsAtLeast_record; [by destruct Hr|done].
    + pose proof (exec_sliding hh c0 Hinv Hrec) as Hstep.
      replace (calls.isStored lim (metric.maxVal (calls.exec hh c0)) c0) with false
        by (by destruct c0).
      replace (c + (0 + calls.stored lim (metric.maxVal (calls.exec hh c0)) cs))
        with (c + calls.stored lim (metric.maxVal (calls.exec hh c0)) cs) by lia.
      destruct (calls.rotates hh c0).
      * replace (k + (1 + calls.rotations (calls.exec hh c0) cs))%nat
          with (S k + calls.rotations (calls.exec hh c0) cs)%nat in Hrot |- * by lia.
        apply IH; [done|done| |by rewrite Hlen].
        rewrite Hstep. apply holdsAtLeast_Rotate; [done|lia].
      * apply IH; [done|done|by rewrite Hstep|by rewrite Hlen].
Qed.

Lemma TotalWindowed_retained lim hh cs :
  Invariant hh → Ranged lim hh →
  slotsNonneg (metric.sliding hh) →
  (calls.rotations hh cs < length (h (metric.sliding hh)))%nat →
  calls.stored lim (metric.maxVal hh) cs ≤ (metric.TotalWindowed (calls.run hh cs)).1
  ∧ (0 ≤ metric.maxVal hh < lim →
     calls.recorded cs ≤ (metric.TotalWindowed (calls.run hh cs)).1).
Proof.
  intros Hinv Hr Hnn Hrot.
  assert (calls.stored lim (metric.maxVal hh) cs
          ≤ (metric.TotalWindowed (calls.run hh cs)).1) as Hstored.
  { destruct (run_holdsAtLeast lim hh cs 0 0 Hinv Hr) as (_ & Hnn' & Hle); [|done|].
    { split; [lia|]. split; [done|]. apply sumBelow_nonneg. intros i Hi.
      case_decide; [|done]. unfold slotCount.
      destruct (lookup_lt_is_Some_2 _ _ Hi) as [x Hx]. rewrite Hx. cbn.
      eapply list.Forall_forall in Hnn; [done|]. by eapply list_elem_of_lookup_2. }
    rewrite TotalWindowed_sumBelow by (by apply run_Invariant).
    pose proof (recentCount_le_all (S (0 + calls.rotations hh cs)) _ Hnn'). lia. }
  split; [done|]. intros Hmax. by rewrite <- (stored_recorded lim (metric.maxVal hh)).
Qed.

(** X12: on an instance with no negative slot count, as long as the ring
    has been rotated fewer times than it has slots the window still holds
    every sample stored in the meantime: the count of [TotalWindowed] is at
    least the number of [RecordValue] calls made whose value or, the value
    being outside the range the distribution takes, whose [maxVal] is
    within that range.  Where [maxVal] is within the range these are all
    the [RecordValue] calls made. *)
Theorem TotalWindowed_keeps_until_W_rotations lim hh cs :
  Invariant hh →
  Ranged lim hh →
  slotsNonneg (metric.sliding hh) →
  (calls.rotations hh cs < length (h (metric.sliding hh)))%nat →
  calls.stored lim (metric.maxVal hh) cs ≤ (metric.TotalWindowed (calls.run hh cs)).1
  ∧ (0 ≤ metric.maxVal hh < lim →
     calls.recorded cs ≤ (metric.TotalWindowed (calls.run hh cs)).1).
Proof. apply TotalWindowed_retained. Qed.

End Ages.

Lemma exact_slotsNonneg (w : @WindowedHistogram exact.primitive) : slotsNonneg w.
Proof.
  apply list.Forall_forall. intros x _. cbn. unfold exact.TotalCount. lia.
Qed.

Lemma TotalWindowed_forgets_after_W_rotations_witness :
  Invariant exact.scenario
  ∧ (length (h (metric.sliding exact.scenario))
     ≤ calls.rotations exact.scenario
         [calls.Tick 50; calls.RecordValue 5; calls.Tick 100; calls.RecordValue 6])%nat
  ∧ (metric.TotalWindowed
       (calls.run exact.scenario
          [calls.Tick 50; calls.RecordValue 5; calls.Tick 100; calls.RecordValue 6])).1
    ≤ 2.
Proof.
  assert (length (h (metric.sliding exact.scenario))
     ≤ calls.rotations exact.scenario
         [calls.Tick 50; calls.RecordValue 5; calls.Tick 100; calls.RecordValue 6])%nat
    as Hrot by (vm_compute; lia).
  exact (conj exact_scenario_Invariant (conj Hrot
    (TotalWindowed_forgets_after_W_rotations exact.scenario _
       exact_scenario_Invariant Hrot))).
Defined.

Lemma TotalWindowed_keeps_until_W_rotations_witness :
  Invariant exact.scenario
  ∧ Ranged 1024 exact.scenario
  ∧ slotsNonneg (metric.sliding exact.scenario)
  ∧ (calls.rotations exact.scenario
       [calls.RecordValue 5; calls.Tick 50; calls.RecordValue 6]
     < length (h (metric.sliding exact.scenario)))%nat
  ∧ 0 ≤ metric.maxVal exact.scenario < 1024
  ∧ 2 ≤ (metric.TotalWindowed
           (calls.run exact.scenario
              [calls.RecordValue 5; calls.Tick 50; calls.RecordValue 6])).1.
Proof.
  assert (0 ≤ metric.maxVal exact.scenario < 1024) as Hmax by (cbn; lia).
  assert (calls.rotations exact.scenario
       [calls.RecordValue 5; calls.Tick 50; calls.RecordValue 6]
     < length (h (metric.sliding exact.scenario)))%nat as Hrot by (vm_compute; lia).
  exact (conj exact_scenario_Invariant (conj exact_scenario_Ranged
    (conj (exact_slotsNonneg _) (conj Hrot (conj Hmax
    (proj2 (TotalWindowed_keeps_until_W_rotations 1024 exact.scenario _
       exact_scenario_Invariant exact_scenario_Ranged (exact_slotsNonneg _) Hrot)
       Hmax)))))).
Defined.

(** ** A forced rotation *)

Section ForcedRotation.
Context {P : Primitive} {L : Lawful P}.

Implicit Types (hh : metric.HdrHistogram).

(** X18: [Tick] rotates the ring whether or not a rotation is due.  The
    window loses exactly the samples of the slot the rotation lands on, the
    oldest one, and the cumulative distribution loses nothing. *)
Theorem Tick_drops_oldest_slot now hh :
  Invariant hh →
  h (metric.sliding hh) ≠ [] →
  metric.sliding (metric.Tick now hh) = WindowedHistogram_Rotate (metric.sliding hh)
  ∧ (metric.TotalWindowed (metric.Tick now hh)).1
    = (metric.TotalWindowed hh).1
      - slotCount (metric.sliding hh)
          (S (idx (metric.sliding hh)) mod length (h (metric.sliding hh)))%nat
  ∧ metric.Total (metric.Tick now hh) = metric.Total hh.
Proof.
  intros Hinv Hne. pose proof Hinv as [_ _ _ Ht].
  destruct (Tick_fields now hh Ht) as (Hc & Hs & _).
  split; [done|]. split; [|unfold metric.Total; by rewrite Hc].
  rewrite !TotalWindowed_sumBelow by (done || by apply Tick_Invariant).
  rewrite Hs, Rotate_length. set (w := metric.sliding hh) in *.
  assert (S (idx w) mod length (h w) < length (h w))%nat as Hlt
    by (apply Nat.mod_upper_bound; by destruct (h w)).
  rewrite (sumBelow_update _ (slotCount w) _ _ Hlt).
  - rewrite slotCount_Rotate, decide_True by done. lia.
  - intros i _ Hi. rewrite slotCount_Rotate. by rewrite decide_False by (by intros [? _]).
Qed.

End ForcedRotation.

Lemma Tick_drops_oldest_slot_witness :
  Invariant examples.straddling
  ∧ h (metric.sliding examples.straddling) ≠ []
  ∧ (metric.TotalWindowed examples.straddling).1 = 3
  ∧ (metric.TotalWindowed (metric.Tick 60 examples.straddling)).1 = 3 - 2.
Proof.
  pose proof (run_Invariant (exact.initial 0 100 10)
    [calls.RecordValue 2; calls.RecordValue 7; calls.Tick 50; calls.RecordValue 9]
    (exact_initial_Invariant 0 100 10)) as Hinv.
  assert (h (metric.sliding examples.straddling) ≠ []) as Hne by done.
  exact (conj Hinv (conj Hne (conj eq_refl
    (proj1 (proj2 (Tick_drops_oldest_slot 60 examples.straddling Hinv Hne)))))).
Defined.
